(** * holma: micro templating with schema validation and HTML escaping

    A shallow embedding of [src/index.ts] and the properties of its
    placeholder-resolution and substitution engine.

    Modelling conventions.
    - A JavaScript string is a list of characters ([jsstring]).  Code units
      are kept to 8 bits; every character class the engine inspects is ASCII,
      so a wider unit behaves as the characters above 127 do here.
    - A JavaScript value is a tree ([value]): the primitives, arrays and plain
      objects holding own data properties.  Inherited properties, accessors
      and functions are outside the model.
    - [async]/[await] is sequential composition; a rejected promise is an
      [Err] outcome.
    - Calls to the collaborators the engine is handed or imports (the
      validator, the transform hook, [htmlEscape]) are recorded in a trace,
      so that "was not invoked" is a statement about the run. *)

From Stdlib Require Import List String Ascii ZArith Lia Bool Arith DecimalString.
Import ListNotations.

Set Warnings "-register-all".

Local Open Scope list_scope.

(** ** Strings *)

Definition jsstring := list ascii.

(** Literals are written [str "..."]. *)
Definition str (s : string) : jsstring := list_ascii_of_string s.

Definition ch (s : string) : ascii :=
  match s with
  | String c _ => c
  | EmptyString => Ascii.zero
  end.

Definition jsstring_eqb (a b : jsstring) : bool :=
  if list_eq_dec ascii_dec a b then true else false.

(** [Array.prototype.join]. *)
Fixpoint join (sep : jsstring) (l : list jsstring) : jsstring :=
  match l with
  | [] => []
  | [x] => x
  | x :: rest => x ++ sep ++ join sep rest
  end.

(** [String.prototype.split] with a one-character separator. *)
Fixpoint split_on (sep : ascii) (s : jsstring) : list jsstring :=
  match s with
  | [] => [[]]
  | c :: s' =>
      if Ascii.eqb c sep then [] :: split_on sep s'
      else match split_on sep s' with
           | [] => [[c]]
           | p :: ps => (c :: p) :: ps
           end
  end.

(** ** Values *)

Inductive value : Type :=
| VUndefined
| VNull
| VBool (b : bool)
| VNum (n : Z)
| VStr (s : jsstring)
| VArr (elems : list value)
| VObj (props : list (jsstring * value)).

(** [typeof v]. *)
Definition typeof (v : value) : jsstring :=
  match v with
  | VUndefined => str "undefined"
  | VNull => str "object"
  | VBool _ => str "boolean"
  | VNum _ => str "number"
  | VStr _ => str "string"
  | VArr _ => str "object"
  | VObj _ => str "object"
  end.

(** [v == null]: true of [null] and [undefined] only. *)
Definition loose_null (v : value) : bool :=
  match v with
  | VUndefined | VNull => true
  | _ => false
  end.

(** [v === undefined]. *)
Definition is_undefined (v : value) : bool :=
  match v with
  | VUndefined => true
  | _ => false
  end.

(** Decimal text of an integer, as [Number.prototype.toString] prints the
    integers it represents exactly. *)
Definition number_to_string (n : Z) : jsstring :=
  str (NilZero.string_of_int (Z.to_int n)).

(** [String(v)].  Array elements that are [null] or [undefined] print as the
    empty string inside [join]; a plain object prints as [[object Object]]. *)
Fixpoint String_ (v : value) : jsstring :=
  match v with
  | VUndefined => str "undefined"
  | VNull => str "null"
  | VBool true => str "true"
  | VBool false => str "false"
  | VNum n => number_to_string n
  | VStr s => s
  | VArr elems =>
      join (str ",")
        (map (fun e => match e with
                       | VUndefined | VNull => []
                       | _ => String_ e
                       end) elems)
  | VObj _ => str "[object Object]"
  end.

(** Own-property lookup in a plain object. *)
Fixpoint lookup_prop (props : list (jsstring * value)) (name : jsstring)
  : value :=
  match props with
  | [] => VUndefined
  | (k, v) :: rest => if jsstring_eqb k name then v else lookup_prop rest name
  end.

(** The canonical index an array property name denotes, if any. *)
Definition array_index (name : jsstring) (len : nat) : option nat :=
  find (fun i => jsstring_eqb (number_to_string (Z.of_nat i)) name) (seq 0 len).

(** ** Errors, traces and the outcome of a call *)

Record issue : Type := { message : jsstring; path : list jsstring }.

Inductive error : Type :=
| TypeError (msg : jsstring)
| SchemaError (issues : list issue)
| MissingValueError (key : jsstring).

Inductive event : Type :=
| EValidate (input : value)
| ETransform (v : value) (key : jsstring)
| EEscape (s : jsstring).

Inductive result (A : Type) : Type :=
| Ok (a : A)
| Err (e : error).
Arguments Ok {A} a.
Arguments Err {A} e.

(** A computation yields the calls it made, in order, and its outcome. *)
Definition M (A : Type) : Type := (list event * result A)%type.

Definition ret {A} (a : A) : M A := ([], Ok a).
Definition throw {A} (e : error) : M A := ([], Err e).
Definition emit (e : event) : M unit := ([e], Ok tt).

Definition bind {A B} (m : M A) (f : A -> M B) : M B :=
  match m with
  | (t, Ok a) => let (t', r) := f a in (t ++ t', r)
  | (t, Err e) => (t, Err e)
  end.

Notation "x <- m ;; k" := (bind m (fun x => k))
  (at level 61, m at next level, right associativity).
Notation "m ;;; k" := (bind m (fun _ => k))
  (at level 61, right associativity).

Definition trace {A} (m : M A) : list event := fst m.
Definition outcome {A} (m : M A) : result A := snd m.

(** ** Regular expressions

    The two patterns of the engine use literals, character classes,
    sequencing, alternation, greedy repetition and one capture group.  The
    matcher below is the backtracking matcher of the language definition in
    continuation-passing style: alternatives are tried left to right, a
    repetition tries one more iteration before it tries to stop, and an
    iteration that consumes nothing is rejected. *)

Inductive regex : Type :=
| Lit (c : ascii)
| Class (ranges : list (ascii * ascii))
| Seq (r1 r2 : regex)
| Alt (r1 r2 : regex)
| Star (r : regex)
| Group (r : regex).

(** [r+] is [rr*]. *)
Definition Plus (r : regex) : regex := Seq r (Star r).

Definition in_range (c : ascii) (rg : ascii * ascii) : bool :=
  (nat_of_ascii (fst rg) <=? nat_of_ascii c)
  && (nat_of_ascii c <=? nat_of_ascii (snd rg)).

(** Canonicalisation under the [i] flag: an ASCII lower-case letter is
    compared as its upper-case form.  No character above 127 is canonically
    equal to an ASCII one, which is all the classes below need. *)
Definition canonicalize (ignoreCase : bool) (c : ascii) : ascii :=
  if ignoreCase && in_range c (ch "a", ch "z")
  then ascii_of_nat (nat_of_ascii c - 32)
  else c.

Definition range_members (rg : ascii * ascii) : list ascii :=
  map ascii_of_nat
    (seq (nat_of_ascii (fst rg))
         (S (nat_of_ascii (snd rg)) - nat_of_ascii (fst rg))).

(** A character matches a class when some member of the class has the same
    canonical form. *)
Definition class_matches (ignoreCase : bool) (ranges : list (ascii * ascii))
  (c : ascii) : bool :=
  existsb
    (fun rg =>
       existsb
         (fun a => Ascii.eqb (canonicalize ignoreCase a)
                             (canonicalize ignoreCase c))
         (range_members rg))
    ranges.

Definition single (c : ascii) : ascii * ascii := (c, c).

(** The state a match carries: the text of capture group 1, once closed. *)
Definition capture := option jsstring.

Definition continuation (R : Type) : Type := jsstring -> capture -> option R.

(** Greedy repetition of [step]: one more iteration is tried before the
    continuation; an iteration must consume at least one character, so the
    length of the text bounds the iterations. *)
Fixpoint star_loop {R : Type}
  (step : jsstring -> capture -> continuation R -> option R)
  (k : continuation R) (fuel : nat) (s : jsstring) (cap : capture)
  : option R :=
  match fuel with
  | O => k s cap
  | S fuel' =>
      match step s cap
              (fun s' cap' =>
                 if List.length s' <? List.length s
                 then star_loop step k fuel' s' cap' else None) with
      | Some x => Some x
      | None => k s cap
      end
  end.

Section Matcher.
Variable ignoreCase : bool.
Context {R : Type}.

Fixpoint rmatch (r : regex) (s : jsstring) (cap : capture)
  (k : continuation R) {struct r} : option R :=
  match r with
  | Lit c =>
      match s with
      | c' :: s' =>
          if Ascii.eqb (canonicalize ignoreCase c) (canonicalize ignoreCase c')
          then k s' cap else None
      | [] => None
      end
  | Class ranges =>
      match s with
      | c' :: s' =>
          if class_matches ignoreCase ranges c' then k s' cap else None
      | [] => None
      end
  | Seq r1 r2 => rmatch r1 s cap (fun s' cap' => rmatch r2 s' cap' k)
  | Alt r1 r2 =>
      match rmatch r1 s cap k with
      | Some x => Some x
      | None => rmatch r2 s cap k
      end
  | Star r1 => star_loop (rmatch r1) k (List.length s) s cap
  | Group r1 =>
      rmatch r1 s cap
        (fun s' _ => k s' (Some (firstn (List.length s - List.length s') s)))
  end.
End Matcher.

(** A successful match: the matched text, capture group 1, and what follows. *)
Record regmatch : Type :=
  { matched : jsstring; group1 : jsstring; after : jsstring }.

(** The pattern applied at the head of [s]. *)
Definition match_here (ignoreCase : bool) (r : regex) (s : jsstring)
  : option regmatch :=
  rmatch ignoreCase r s None
    (fun s' cap =>
       Some {| matched := firstn (List.length s - List.length s') s;
               group1 := match cap with Some g => g | None => [] end;
               after := s' |}).

(** [RegExpBuiltinExec] from the start of [s]: the first position at which
    the pattern matches, with the text skipped to reach it. *)
Fixpoint exec (ignoreCase : bool) (r : regex) (s : jsstring)
  : option (jsstring * regmatch) :=
  match match_here ignoreCase r s with
  | Some m => Some ([], m)
  | None =>
      match s with
      | [] => None
      | c :: s' =>
          match exec ignoreCase r s' with
          | Some (skipped, m) => Some (c :: skipped, m)
          | None => None
          end
      end
  end.

(** [RegExp.prototype.test] on a fresh pattern.  With the [g] flag it leaves
    [lastIndex] behind the match; [String.prototype.replace] sets [lastIndex]
    back to 0 before it scans, so that state does not reach the replacement
    that follows and is not modelled. *)
Definition test (ignoreCase : bool) (r : regex) (s : jsstring) : bool :=
  match exec ignoreCase r s with
  | Some _ => true
  | None => false
  end.

(** Both patterns carry the [i] flag. *)
Definition flag_i : bool := true.

(** [\d], [[a-z$_]] and [[\w\-$]]. *)
Definition digit_ranges : list (ascii * ascii) := [(ch "0", ch "9")].

Definition digit : regex := Class digit_ranges.

Definition word_ranges : list (ascii * ascii) :=
  [(ch "a", ch "z"); (ch "A", ch "Z"); (ch "0", ch "9"); single (ch "_")].

Definition ident_start_ranges : list (ascii * ascii) :=
  [(ch "a", ch "z"); single (ch "$"); single (ch "_")].

Definition ident_char_ranges : list (ascii * ascii) :=
  word_ranges ++ [single (ch "-"); single (ch "$")].

Definition ident_start : regex := Class ident_start_ranges.

Definition ident_char : regex := Class ident_char_ranges.

(** The key group, spaced out:
    [( \d+ | [a-z$_] [\w\-$]* (?: \. [\w\-$]* )* )]. *)
Definition key_group : regex :=
  Group
    (Alt (Plus digit)
         (Seq ident_start
              (Seq (Star ident_char)
                   (Star (Seq (Lit (ch ".")) (Star ident_char)))))).

(** [doubleBraces]: two opening braces, the key group, two closing braces;
    flags [g] and [i]. *)
Definition doubleBraces : regex :=
  Seq (Lit (ch "{")) (Seq (Lit (ch "{"))
    (Seq key_group (Seq (Lit (ch "}")) (Lit (ch "}"))))).

(** [singleBraces]: one opening brace, the key group, one closing brace;
    flags [g] and [i]. *)
Definition singleBraces : regex :=
  Seq (Lit (ch "{")) (Seq key_group (Lit (ch "}"))).

(** ** [String.prototype.replace] with a global pattern and a callback

    All matches are found first, left to right and without overlap; the
    callback is then called once per match, in order, with the matched text
    and the capture group; the text between matches is copied. *)

Inductive piece : Type :=
| Text (t : jsstring)
| Hit (placeholder key : jsstring).

(** The match loop.  A match of either pattern is never empty, so the text
    still to scan shrinks at every round and its length bounds the rounds. *)
Fixpoint matchAll (fuel : nat) (ignoreCase : bool) (r : regex) (s : jsstring)
  : list piece :=
  match fuel with
  | O => [Text s]
  | S fuel' =>
      match exec ignoreCase r s with
      | None => [Text s]
      | Some (skipped, m) =>
          Text skipped :: Hit (matched m) (group1 m)
            :: matchAll fuel' ignoreCase r (after m)
      end
  end.

Fixpoint substitute (fn : jsstring -> jsstring -> M jsstring)
  (ps : list piece) : M jsstring :=
  match ps with
  | [] => ret []
  | Text t :: ps' =>
      out <- substitute fn ps' ;;
      ret (t ++ out)
  | Hit placeholder key :: ps' =>
      replacement <- fn placeholder key ;;
      out <- substitute fn ps' ;;
      ret (replacement ++ out)
  end.

Definition String_replace (ignoreCase : bool) (r : regex) (s : jsstring)
  (fn : jsstring -> jsstring -> M jsstring) : M jsstring :=
  substitute fn (matchAll (List.length s) ignoreCase r s).

(** ** The engine *)

(** The double quote character. *)
Definition double_quote : ascii := ascii_of_nat 34.

(** Modelled from the spec: [htmlEscape] of the package escape-goat, an
    external pure function mapping the five HTML-significant characters to
    their entities and leaving every other character as it is. *)
Definition escape_char (c : ascii) : jsstring :=
  if Ascii.eqb c (ch "&") then str "&amp;"
  else if Ascii.eqb c (ch "<") then str "&lt;"
  else if Ascii.eqb c (ch ">") then str "&gt;"
  else if Ascii.eqb c double_quote then str "&quot;"
  else if Ascii.eqb c (ch "'") then str "&#39;"
  else [c].

Definition htmlEscape_pure (s : jsstring) : jsstring := flat_map escape_char s.

Definition htmlEscape (s : jsstring) : M jsstring :=
  emit (EEscape s) ;;; ret (htmlEscape_pure s).

(** What a validator returns: [issues] is set on failure, [value] on
    success. *)
Record validation_result : Type :=
  { issues : option (list issue); value_ : value }.

(** The validator capability of a schema. *)
Definition schema := value -> validation_result.

Definition validateSchema (sch : schema) (input : value) : M value :=
  emit (EValidate input) ;;;
  let result := sch input in
  match issues result with
  | Some l => throw (SchemaError l)
  | None => ret (value_ result)
  end.

(** [value[part]] where [typeof value] is [object] and [value] is not
    [null]; reading a property of [null] or [undefined] raises. *)
Definition get_property (v : value) (part : jsstring) : M value :=
  match v with
  | VObj props => ret (lookup_prop props part)
  | VArr elems =>
      if jsstring_eqb part (str "length")
      then ret (VNum (Z.of_nat (List.length elems)))
      else match array_index part (List.length elems) with
           | Some i => ret (nth i elems VUndefined)
           | None => ret VUndefined
           end
  | VUndefined | VNull =>
      throw (TypeError (str "Cannot read properties of null or undefined"))
  | _ => ret VUndefined
  end.

(** The loop of [getNestedValue] over the parts of the path. *)
Fixpoint walk (parts : list jsstring) (v : value) : M value :=
  match parts with
  | [] => ret v
  | part :: rest =>
      if loose_null v then ret VUndefined
      else if jsstring_eqb (typeof v) (str "object")
           then v' <- get_property v part ;; walk rest v'
           else ret VUndefined
  end.

Definition getNestedValue (obj : value) (path_ : jsstring) : M value :=
  walk (split_on (ch ".") path_) obj.

(** The options of a call.  An option left out is [false] or [None].  The
    transform hook is a function of the value and the key; a hook with
    effects of its own is outside the model. *)
Record HolmaOptions : Type :=
  { ignoreMissing : bool;
    transform : option (value -> jsstring -> value) }.

(** [options = {}]. *)
Definition default_options : HolmaOptions :=
  {| ignoreMissing := false; transform := None |}.

Definition replace (safeData : value) (options : HolmaOptions)
  (placeholder key : jsstring) : M jsstring :=
  v <- getNestedValue safeData key ;;
  transformed <-
    match transform options with
    | Some f => emit (ETransform v key) ;;; ret (f v key)
    | None => ret v
    end ;;
  if is_undefined transformed
  then if ignoreMissing options then ret placeholder
       else throw (MissingValueError key)
  else ret (String_ transformed).

Definition withEscape (fn : jsstring -> jsstring -> M jsstring)
  (placeholder key : jsstring) : M jsstring :=
  r <- fn placeholder key ;; htmlEscape r.

Definition holma (template : value) (sch : schema) (data : value)
  (options : HolmaOptions) : M jsstring :=
  match template with
  | VStr t =>
      safeData <- validateSchema sch data ;;
      let result := t in
      result <-
        (if test flag_i doubleBraces result
         then String_replace flag_i doubleBraces result
                (withEscape (replace safeData options))
         else ret result) ;;
      String_replace flag_i singleBraces result (replace safeData options)
  | _ =>
      throw (TypeError (str "Expected a `string` for template, got `"
                          ++ typeof template ++ str "`"))
  end.

(** A schema that accepts every input as it is. *)
Definition accept_all : schema :=
  fun input => {| issues := None; value_ := input |}.

(** Shorthands for writing data. *)
Definition prop (k : string) (v : value) : jsstring * value := (str k, v).
Definition vstr (s : string) : value := VStr (str s).

(** ** The patterns read as recognisers

    What the two patterns accept, written as direct recursion on the text;
    [match_here_single] and [match_here_double] below prove that the
    backtracking matcher computes exactly this. *)

Definition is_digit : ascii -> bool := class_matches flag_i digit_ranges.

Definition is_ident_start : ascii -> bool :=
  class_matches flag_i ident_start_ranges.

Definition is_ident_char : ascii -> bool :=
  class_matches flag_i ident_char_ranges.

(** After its first character an identifier key is any run of identifier
    characters and dots. *)
Definition is_key_tail (c : ascii) : bool :=
  is_ident_char c || Ascii.eqb c (ch ".").

Fixpoint dropwhile (p : ascii -> bool) (s : jsstring) : jsstring :=
  match s with
  | c :: s' => if p c then dropwhile p s' else s
  | [] => []
  end.

Fixpoint takewhile (p : ascii -> bool) (s : jsstring) : jsstring :=
  match s with
  | c :: s' => if p c then c :: takewhile p s' else []
  | [] => []
  end.

(** The longest key at the head of [s], and what follows it. *)
Definition key_prefix (s : jsstring) : option (jsstring * jsstring) :=
  match s with
  | c :: s' =>
      if is_digit c
      then Some (c :: takewhile is_digit s', dropwhile is_digit s')
      else if is_ident_start c
           then Some (c :: takewhile is_key_tail s', dropwhile is_key_tail s')
           else None
  | [] => None
  end.

(** The keys the patterns accept. *)
Definition valid_key (k : jsstring) : bool :=
  match k with
  | c :: k' =>
      (is_digit c && forallb is_digit k')
      || (is_ident_start c && forallb is_key_tail k')
  | [] => false
  end.

(** [strip c n s] removes [n] copies of [c] from the head of [s]. *)
Fixpoint strip (c : ascii) (n : nat) (s : jsstring) : option jsstring :=
  match n with
  | O => Some s
  | S n' =>
      match s with
      | c' :: s' => if Ascii.eqb c c' then strip c n' s' else None
      | [] => None
      end
  end.

Definition braced (n : nat) (key : jsstring) : jsstring :=
  repeat (ch "{") n ++ key ++ repeat (ch "}") n.

(** A placeholder with [n] braces on each side at the head of [s]. *)
Definition placeholder_at (n : nat) (s : jsstring) : option regmatch :=
  match strip (ch "{") n s with
  | Some s1 =>
      match key_prefix s1 with
      | Some (key, s2) =>
          match strip (ch "}") n s2 with
          | Some rest =>
              Some {| matched := braced n key; group1 := key; after := rest |}
          | None => None
          end
      | None => None
      end
  | None => None
  end.

(** The two placeholder classes, their patterns and their brace counts. *)
Inductive syntax : Type := RAW | ESCAPED.

Definition pattern_of (c : syntax) : regex :=
  match c with
  | RAW => singleBraces
  | ESCAPED => doubleBraces
  end.

Definition braces (c : syntax) : nat :=
  match c with
  | RAW => 1
  | ESCAPED => 2
  end.

(** One replacement pass of the engine. *)
Definition pass (c : syntax) (s : jsstring)
  (fn : jsstring -> jsstring -> M jsstring) : M jsstring :=
  String_replace flag_i (pattern_of c) s fn.

(** The two passes in sequence, the first one unguarded. *)
Definition two_passes (safeData : value) (options : HolmaOptions)
  (t : jsstring) : M jsstring :=
  result <- pass ESCAPED t (withEscape (replace safeData options)) ;;
  pass RAW result (replace safeData options).

(** The outcome of a computation is the result [a]. *)
Definition succeeds {A} (m : M A) (a : A) : Prop := outcome m = Ok a.

(** Sequencing two computations of text and joining what they yield. *)
Definition mapp (a b : M jsstring) : M jsstring :=
  x <- a ;; y <- b ;; ret (x ++ y).

(** A match found in a text is found in the same text followed by [z]. *)
Definition extend (z : jsstring) (m : regmatch) : regmatch :=
  {| matched := matched m; group1 := group1 m; after := after m ++ z |}.

(** The text [z] is empty or starts with an opening brace. *)
Definition opens (z : jsstring) : Prop :=
  match z with
  | [] => True
  | a :: _ => a = ch "{"
  end.

(** No match of the pattern of [c] that starts inside [x] reaches into [z],
    and the matches inside [x] are those of [x] alone. *)
Definition no_crossing (c : syntax) (x z : jsstring) : Prop :=
  forall x1 x2,
    x = x1 ++ x2 -> x2 <> [] ->
    placeholder_at (braces c) (x2 ++ z)
    = option_map (extend z) (placeholder_at (braces c) x2).

(** ** Nested lookup as the specification words it

    Walk the segments in order: the result is absent as soon as the current
    value is [null] or absent, or is not a structure that can be traversed;
    otherwise descend into the named field or index. *)

Definition traversable (v : value) : bool :=
  match v with
  | VArr _ | VObj _ => true
  | _ => false
  end.

Definition descend (v : value) (part : jsstring) : value :=
  match v with
  | VObj props => lookup_prop props part
  | VArr elems =>
      if jsstring_eqb part (str "length")
      then VNum (Z.of_nat (List.length elems))
      else match array_index part (List.length elems) with
           | Some i => nth i elems VUndefined
           | None => VUndefined
           end
  | _ => VUndefined
  end.

Fixpoint lookup_parts (parts : list jsstring) (v : value) : value :=
  match parts with
  | [] => v
  | part :: rest =>
      if loose_null v then VUndefined
      else if traversable v then lookup_parts rest (descend v part)
           else VUndefined
  end.

Definition nested_lookup (data : value) (key : jsstring) : value :=
  lookup_parts (split_on (ch ".") key) data.

(** The value a placeholder stands for: looked up, then transformed. *)
Definition transformed (options : HolmaOptions) (safeData : value)
  (key : jsstring) : value :=
  match transform options with
  | Some f => f (nested_lookup safeData key) key
  | None => nested_lookup safeData key
  end.

(** The call of the transform hook made for one placeholder, if any. *)
Definition transform_events (options : HolmaOptions) (safeData : value)
  (key : jsstring) : list event :=
  match transform options with
  | Some _ => [ETransform (nested_lookup safeData key) key]
  | None => []
  end.

(** ** A pass read through its matches *)

(** The matches of a pass over [s], with the text between them. *)
Definition pieces (c : syntax) (s : jsstring) : list piece :=
  matchAll (List.length s) flag_i (pattern_of c) s.

(** The callback each pass hands to [String.prototype.replace]. *)
Definition replacer (c : syntax) (safeData : value) (options : HolmaOptions)
  : jsstring -> jsstring -> M jsstring :=
  match c with
  | RAW => replace safeData options
  | ESCAPED => withEscape (replace safeData options)
  end.

Section Pieces.
Variables (options : HolmaOptions) (safeData : value).

(** The placeholder of a piece has a value. *)
Definition present (p : piece) : bool :=
  match p with
  | Text _ => true
  | Hit _ key => negb (is_undefined (transformed options safeData key))
  end.

Definition all_present (ps : list piece) : bool := forallb present ps.

(** The text a pass of class [c] puts in place of a piece whose value is
    present: the stringified value, HTML-escaped for the class ESCAPED and
    as it is for the class RAW. *)
Definition inserted (c : syntax) (p : piece) : jsstring :=
  match p with
  | Text t => t
  | Hit _ key =>
      match c with
      | RAW => String_ (transformed options safeData key)
      | ESCAPED => htmlEscape_pure (String_ (transformed options safeData key))
      end
  end.

(** The calls made for a piece whose value is present. *)
Definition calls (c : syntax) (p : piece) : list event :=
  match p with
  | Text _ => []
  | Hit _ key =>
      transform_events options safeData key
      ++ match c with
         | RAW => []
         | ESCAPED => [EEscape (String_ (transformed options safeData key))]
         end
  end.

(** The key of the first placeholder without a value. *)
Fixpoint first_missing (ps : list piece) : option jsstring :=
  match ps with
  | [] => None
  | Text _ :: ps' => first_missing ps'
  | Hit _ key :: ps' =>
      if is_undefined (transformed options safeData key) then Some key
      else first_missing ps'
  end.

(** The pieces before the first placeholder without a value. *)
Fixpoint before_missing (ps : list piece) : list piece :=
  match ps with
  | [] => []
  | p :: ps' => if present p then p :: before_missing ps' else []
  end.

(** The calls made up to and including the first placeholder without a
    value. *)
Definition calls_until_missing (c : syntax) (ps : list piece) : list event :=
  flat_map (calls c) (before_missing ps)
  ++ match first_missing ps with
     | Some key => transform_events options safeData key
     | None => []
     end.

(** The text between the two passes when every ESCAPED placeholder of the
    template [t] has a value. *)
Definition after_first_pass (t : jsstring) : jsstring :=
  List.concat (map (inserted ESCAPED) (pieces ESCAPED t)).

(** The first placeholder without a value in the order of the scan: the
    first pass over the template, then the second pass over its result. *)
Definition first_missing_key (t : jsstring) : option jsstring :=
  match first_missing (pieces ESCAPED t) with
  | Some key => Some key
  | None => first_missing (pieces RAW (after_first_pass t))
  end.
End Pieces.

(** ** Variants of the renderer for the guard of the first pass *)

Definition type_error (template : value) : error :=
  TypeError (str "Expected a `string` for template, got `"
               ++ typeof template ++ str "`").

(** The renderer with the first pass skipped. *)
Definition holma_first_pass_skipped (template : value) (sch : schema)
  (data : value) (options : HolmaOptions) : M jsstring :=
  match template with
  | VStr t =>
      safeData <- validateSchema sch data ;;
      String_replace flag_i singleBraces t (replace safeData options)
  | _ => throw (type_error template)
  end.

(** The renderer with the first pass run whatever the template holds. *)
Definition holma_first_pass_always (template : value) (sch : schema)
  (data : value) (options : HolmaOptions) : M jsstring :=
  match template with
  | VStr t =>
      safeData <- validateSchema sch data ;;
      result <- String_replace flag_i doubleBraces t
                  (withEscape (replace safeData options)) ;;
      String_replace flag_i singleBraces result (replace safeData options)
  | _ => throw (type_error template)
  end.

Definition is_string (v : value) : bool :=
  match v with
  | VStr _ => true
  | _ => false
  end.




(** The pass of class [c] turns the text [l] in front of [y] into [r]: it
    succeeds on [l ++ y] exactly when it succeeds on [y], and then yields [r]
    followed by what it yields on [y]. *)
Definition turns (safeData : value) (options : HolmaOptions) (c : syntax)
  (l r y : jsstring) : Prop :=
  forall o,
    succeeds (pass c (l ++ y) (replacer c safeData options)) o
    <-> exists out,
          succeeds (pass c y (replacer c safeData options)) out /\ o = r ++ out.

(** The pass keeps the text [l] as it is. *)
Definition kept (safeData : value) (options : HolmaOptions) (c : syntax)
  (l y : jsstring) : Prop :=
  turns safeData options c l l y.

(** ** The key grammar as claim C9 words it

    A key is one or more decimal digits, or non-empty dot-separated segments,
    each starting with a letter, [$] or [_] and continuing with word
    characters, hyphens or [$]. *)

Definition is_segment (s : jsstring) : bool :=
  match s with
  | c :: s' => is_ident_start c && forallb is_ident_char s'
  | [] => false
  end.

Definition claimed_key (k : jsstring) : bool :=
  match k with
  | [] => false
  | _ => forallb is_digit k || forallb is_segment (split_on (ch ".") k)
  end.

(** A text between one pair of braces. *)
Definition in_braces (body : jsstring) : jsstring :=
  ch "{" :: body ++ [ch "}"].

(** The text holds no brace. *)
Definition brace_free (body : jsstring) : Prop :=
  forall a, In a body -> a <> ch "{" /\ a <> ch "}".


(** No double-brace placeholder stands anywhere in the template. *)
Definition no_escaped_placeholder (t : jsstring) : Prop :=
  forall x k y, valid_key k = true -> t <> x ++ braced 2 k ++ y.

(** ** Further notions for the properties of the code *)

(** The message the constructor of [MissingValueError] builds; a key that is
    left out or empty is falsy. *)
Definition MissingValueError_message (key : option jsstring) : jsstring :=
  str "Missing a value for "
  ++ match key with
     | Some (c :: k) => str "the placeholder: " ++ c :: k
     | _ => str "a placeholder"
     end.

(** No placeholder of class [c] stands anywhere in the text. *)
Definition no_placeholder (c : syntax) (t : jsstring) : Prop :=
  forall x k y, valid_key k = true -> t <> x ++ braced (braces c) k ++ y.

(** The text a piece was cut from. *)
Definition source (p : piece) : jsstring :=
  match p with
  | Text t => t
  | Hit placeholder _ => placeholder
  end.

(** The text holds no opening brace. *)
Definition open_free (l : jsstring) : Prop :=
  forall a, In a l -> a <> ch "{".

(** A text that cannot take part in a single-brace placeholder: it holds no
    opening brace, and after its leading key characters comes a character
    that is not a closing brace. *)
Definition inert (e : jsstring) : Prop :=
  open_free e
  /\ exists c r, dropwhile is_key_tail e = c :: r /\ c <> ch "}".

Definition is_validate (e : event) : bool :=
  match e with
  | EValidate _ => true
  | _ => false
  end.

(** * Properties *)

Lemma jsstring_eqb_eq (a b : jsstring) : jsstring_eqb a b = true <-> a = b.
Proof.
  unfold jsstring_eqb. destruct (list_eq_dec ascii_dec a b); split; congruence.
Qed.

Lemma jsstring_eqb_refl (a : jsstring) : jsstring_eqb a a = true.
Proof. now apply jsstring_eqb_eq. Qed.

(** ** The monad *)

Lemma bind_ret_l {A B} (a : A) (f : A -> M B) : bind (ret a) f = f a.
Proof. unfold bind, ret. destruct (f a). reflexivity. Qed.

Lemma bind_ret_r {A} (m : M A) : bind m ret = m.
Proof.
  destruct m as [t [a|e]]; unfold bind, ret; simpl; [rewrite app_nil_r|]; reflexivity.
Qed.

Lemma bind_assoc {A B C} (m : M A) (f : A -> M B) (g : B -> M C) :
  bind (bind m f) g = bind m (fun a => bind (f a) g).
Proof.
  destruct m as [t [a|e]]; unfold bind; simpl; [|reflexivity].
  destruct (f a) as [t1 [b|e1]]; [|reflexivity].
  destruct (g b) as [t2 r]. now rewrite app_assoc.
Qed.

Lemma bind_ext {A B} (m : M A) (f g : A -> M B) :
  (forall a, f a = g a) -> bind m f = bind m g.
Proof.
  intros H. destruct m as [t [a|e]]; unfold bind; [rewrite H|]; reflexivity.
Qed.

Lemma bind_throw {A B} (e : error) (f : A -> M B) : bind (throw e) f = throw e.
Proof. reflexivity. Qed.

(** ** Characters *)

Lemma for_all_chars (p : ascii -> bool) :
  forallb p (map ascii_of_nat (seq 0 256)) = true -> forall c, p c = true.
Proof.
  intros H c. rewrite forallb_forall in H. apply H.
  rewrite <- (ascii_nat_embedding c). apply in_map, in_seq.
  pose proof (nat_ascii_bounded c). lia.
Qed.

Ltac by_cases_on_char c :=
  revert c;
  match goal with
  | |- forall c, @?P c = true => apply (for_all_chars P); vm_compute; reflexivity
  end.

Lemma lit_open_eqb (c : ascii) :
  Ascii.eqb (canonicalize flag_i (ch "{")) (canonicalize flag_i c)
  = Ascii.eqb (ch "{") c.
Proof.
  apply Bool.eqb_prop. by_cases_on_char c.
Qed.

Lemma lit_close_eqb (c : ascii) :
  Ascii.eqb (canonicalize flag_i (ch "}")) (canonicalize flag_i c)
  = Ascii.eqb (ch "}") c.
Proof.
  apply Bool.eqb_prop. by_cases_on_char c.
Qed.

Lemma lit_dot_eqb (c : ascii) :
  Ascii.eqb (canonicalize flag_i (ch ".")) (canonicalize flag_i c)
  = Ascii.eqb c (ch ".").
Proof.
  apply Bool.eqb_prop. by_cases_on_char c.
Qed.

Lemma digit_not_ident_start (c : ascii) :
  is_digit c = true -> is_ident_start c = false.
Proof.
  intros H. apply Bool.negb_true_iff. revert H. apply Bool.implb_true_iff.
  by_cases_on_char c.
Qed.

Lemma ident_char_not_dot (c : ascii) :
  is_ident_char c = true -> Ascii.eqb c (ch ".") = false.
Proof.
  intros H. apply Bool.negb_true_iff. revert H. apply Bool.implb_true_iff.
  by_cases_on_char c.
Qed.

Lemma key_tail_not_close (c : ascii) :
  is_key_tail c = true -> Ascii.eqb (ch "}") c = false.
Proof.
  intros H. apply Bool.negb_true_iff. revert H. apply Bool.implb_true_iff.
  by_cases_on_char c.
Qed.

Lemma key_tail_not_open (c : ascii) :
  is_key_tail c = true -> Ascii.eqb (ch "{") c = false.
Proof.
  intros H. apply Bool.negb_true_iff. revert H. apply Bool.implb_true_iff.
  by_cases_on_char c.
Qed.

Lemma digit_key_tail (c : ascii) : is_digit c = true -> is_key_tail c = true.
Proof. intros H. revert H. apply Bool.implb_true_iff. by_cases_on_char c. Qed.

Lemma ident_start_key_tail (c : ascii) :
  is_ident_start c = true -> is_key_tail c = true.
Proof. intros H. revert H. apply Bool.implb_true_iff. by_cases_on_char c. Qed.

Lemma ident_char_key_tail (c : ascii) :
  is_ident_char c = true -> is_key_tail c = true.
Proof. unfold is_key_tail. now intros ->. Qed.

(** ** Runs of characters *)

Lemma takewhile_dropwhile (p : ascii -> bool) (s : jsstring) :
  takewhile p s ++ dropwhile p s = s.
Proof. induction s as [|c s IH]; simpl; [|destruct (p c); simpl; rewrite ?IH]; reflexivity. Qed.

Lemma takewhile_all (p : ascii -> bool) (s : jsstring) :
  forallb p (takewhile p s) = true.
Proof.
  induction s as [|c s IH]; simpl; [reflexivity|].
  destruct (p c) eqn:E; simpl; [rewrite E|]; auto.
Qed.

Lemma dropwhile_length (p : ascii -> bool) (s : jsstring) :
  List.length (dropwhile p s) <= List.length s.
Proof. induction s as [|c s IH]; simpl; [|destruct (p c); simpl]; lia. Qed.

Lemma dropwhile_head (p : ascii -> bool) (s : jsstring) (c : ascii) (t : jsstring) :
  dropwhile p s = c :: t -> p c = false.
Proof.
  induction s as [|c' s IH]; simpl; [discriminate|].
  destruct (p c') eqn:E; [assumption|]. intros [= <- <-]. exact E.
Qed.

Lemma dropwhile_weaken (p q : ascii -> bool) (s : jsstring) :
  (forall c, p c = true -> q c = true) ->
  dropwhile q (dropwhile p s) = dropwhile q s.
Proof.
  intros H. induction s as [|c s IH]; simpl; [reflexivity|].
  destruct (p c) eqn:E; [rewrite (H _ E); exact IH|reflexivity].
Qed.

Lemma takewhile_app_all (p : ascii -> bool) (k rest : jsstring) :
  forallb p k = true -> takewhile p (k ++ rest) = k ++ takewhile p rest.
Proof.
  induction k as [|c k IH]; simpl; [reflexivity|].
  intros H. apply andb_prop in H as [-> H]. now rewrite IH.
Qed.

Lemma dropwhile_app_all (p : ascii -> bool) (k rest : jsstring) :
  forallb p k = true -> dropwhile p (k ++ rest) = dropwhile p rest.
Proof.
  induction k as [|c k IH]; simpl; [reflexivity|].
  intros H. apply andb_prop in H as [-> H]. now rewrite IH.
Qed.

(** ** The matcher on the two patterns *)

(** A repeated class followed by something no member of the class can
    start: backtracking never helps, the whole run is taken. *)
Lemma star_loop_class {R : Type} (k : continuation R)
  (rs : list (ascii * ascii)) :
  (forall c t cap, class_matches flag_i rs c = true -> k (c :: t) cap = None) ->
  forall fuel s cap,
    List.length s <= fuel ->
    star_loop (rmatch flag_i (Class rs)) k fuel s cap
    = k (dropwhile (class_matches flag_i rs) s) cap.
Proof.
  intros Hk. induction fuel as [|fuel IH]; intros s cap Hlen.
  - destruct s; [reflexivity|simpl in Hlen; lia].
  - destruct s as [|c s]; [reflexivity|].
    cbn [star_loop rmatch dropwhile].
    destruct (class_matches flag_i rs c) eqn:E.
    + replace (List.length s <? List.length (c :: s)) with true
        by (symmetry; apply Nat.ltb_lt; simpl; lia).
      rewrite IH by (simpl in Hlen; lia).
      destruct (k (dropwhile (class_matches flag_i rs) s) cap); [reflexivity|].
      now apply Hk.
    + reflexivity.
Qed.

Section StarLoops.
Context {R : Type}.
Variable k : continuation R.

Hypothesis k_rejects_key_tail :
  forall c t cap, is_key_tail c = true -> k (c :: t) cap = None.

(** The repeated dotted segment, entered on a text that may still start
    with an identifier character (after the matcher gave some back). *)
Lemma star_loop_dotted :
  forall fuel s cap,
    List.length s <= fuel ->
    star_loop (rmatch flag_i (Seq (Lit (ch ".")) (Star ident_char))) k fuel s cap
    = match s with
      | c :: _ =>
          if is_ident_char c then None else k (dropwhile is_key_tail s) cap
      | [] => k [] cap
      end.
Proof.
  induction fuel as [|fuel IH]; intros s cap Hlen.
  - destruct s; [reflexivity|simpl in Hlen; lia].
  - destruct s as [|c s]; [reflexivity|].
    cbn [star_loop rmatch]. rewrite lit_dot_eqb.
    destruct (Ascii.eqb c (ch ".")) eqn:Edot.
    + apply Ascii.eqb_eq in Edot. subst c.
      unfold ident_char.
      rewrite star_loop_class.
      * change (class_matches flag_i ident_char_ranges) with is_ident_char.
        pose proof (dropwhile_length is_ident_char s) as Hdl.
        replace (List.length (dropwhile is_ident_char s)
                 <? List.length (ch "." :: s)) with true
          by (symmetry; apply Nat.ltb_lt; simpl; lia).
        rewrite IH by (simpl in Hlen; lia).
        change (is_ident_char (ch ".")) with false. cbv iota.
        change (dropwhile is_key_tail (ch "." :: s)) with (dropwhile is_key_tail s).
        rewrite <- (dropwhile_weaken is_ident_char is_key_tail s)
          by apply ident_char_key_tail.
        destruct (dropwhile is_ident_char s) as [|c' t] eqn:Ed.
        -- simpl. destruct (k [] cap); [reflexivity|].
           now apply k_rejects_key_tail.
        -- rewrite (dropwhile_head _ _ _ _ Ed).
           destruct (k (dropwhile is_key_tail (c' :: t)) cap); [reflexivity|].
           now apply k_rejects_key_tail.
      * intros c' t cap' Hc'.
        destruct (List.length (c' :: t) <? List.length (ch "." :: s)) eqn:El;
          [|reflexivity].
        apply Nat.ltb_lt in El. cbn [List.length] in El, Hlen.
rewrite IH by (cbn [List.length]; lia).
        change (class_matches flag_i ident_char_ranges) with is_ident_char in Hc'.
        now rewrite Hc'.
      * reflexivity.
    + destruct (is_ident_char c) eqn:Ei.
      * apply k_rejects_key_tail. now apply ident_char_key_tail.
      * cbn [dropwhile]. unfold is_key_tail. now rewrite Ei, Edot.
Qed.
End StarLoops.

Lemma firstn_split (a b s : jsstring) :
  s = a ++ b -> firstn (List.length s - List.length b) s = a.
Proof.
  intros ->. rewrite length_app.
  replace (List.length a + List.length b - List.length b) with (List.length a + 0) by lia.
  rewrite firstn_app_2. simpl. apply app_nil_r.
Qed.

Lemma key_prefix_app (s key rest : jsstring) :
  key_prefix s = Some (key, rest) -> s = key ++ rest.
Proof.
  destruct s as [|c s]; [discriminate|]. unfold key_prefix.
  destruct (is_digit c); [|destruct (is_ident_start c); [|discriminate]];
    intros [= <- <-]; simpl; now rewrite takewhile_dropwhile.
Qed.

(** The defining equations of the matcher, for rewriting. *)
Section MatcherEquations.
Context {R : Type}.
Variables (ic : bool) (k : continuation R) (s : jsstring) (cap : capture).

Lemma rmatch_Seq r1 r2 :
  rmatch ic (Seq r1 r2) s cap k
  = rmatch ic r1 s cap (fun s' cap' => rmatch ic r2 s' cap' k).
Proof. reflexivity. Qed.

Lemma rmatch_Alt r1 r2 :
  rmatch ic (Alt r1 r2) s cap k
  = match rmatch ic r1 s cap k with
    | Some x => Some x
    | None => rmatch ic r2 s cap k
    end.
Proof. reflexivity. Qed.

Lemma rmatch_Star r :
  rmatch ic (Star r) s cap k
  = star_loop (rmatch ic r) k (List.length s) s cap.
Proof. reflexivity. Qed.

Lemma rmatch_Group r :
  rmatch ic (Group r) s cap k
  = rmatch ic r s cap
      (fun s' _ => k s' (Some (firstn (List.length s - List.length s') s))).
Proof. reflexivity. Qed.

Lemma rmatch_Class_cons rs c t :
  rmatch ic (Class rs) (c :: t) cap k
  = if class_matches ic rs c then k t cap else None.
Proof. reflexivity. Qed.

Lemma rmatch_Lit_cons c c' t :
  rmatch ic (Lit c) (c' :: t) cap k
  = if Ascii.eqb (canonicalize ic c) (canonicalize ic c')
    then k t cap else None.
Proof. reflexivity. Qed.
End MatcherEquations.

(** The key group followed by something no key character can start. *)
Lemma rmatch_key_group {R : Type} (k : continuation R) :
  (forall c t cap, is_key_tail c = true -> k (c :: t) cap = None) ->
  forall s cap,
    rmatch flag_i key_group s cap k
    = match key_prefix s with
      | Some (key, rest) => k rest (Some key)
      | None => None
      end.
Proof.
  intros Hk s cap. unfold key_group, Plus.
  destruct s as [|c s]; [reflexivity|].
  rewrite rmatch_Group.
  set (kG := fun (s' : jsstring) (_ : capture) =>
               k s' (Some (firstn (List.length (c :: s) - List.length s') (c :: s)))).
  assert (HkG : forall c' t cap', is_key_tail c' = true -> kG (c' :: t) cap' = None)
    by (intros; unfold kG; now apply Hk).
  assert (Hcap : forall p, kG (dropwhile p s) cap
                           = k (dropwhile p s) (Some (c :: takewhile p s))).
  { intros p. unfold kG. f_equal. f_equal. apply firstn_split.
    simpl. now rewrite takewhile_dropwhile. }
  rewrite rmatch_Alt, !rmatch_Seq.
  unfold digit at 1, ident_start. rewrite !rmatch_Class_cons.
  change (class_matches flag_i digit_ranges) with is_digit.
  change (class_matches flag_i ident_start_ranges) with is_ident_start.
  unfold key_prefix.
  destruct (is_digit c) eqn:Ed.
  - rewrite rmatch_Star. unfold digit.
    rewrite star_loop_class; [|now intros; apply HkG, digit_key_tail|lia].
    change (class_matches flag_i digit_ranges) with is_digit.
    rewrite (digit_not_ident_start _ Ed), Hcap.
    destruct (k _ _); reflexivity.
  - destruct (is_ident_start c) eqn:Ei; [|reflexivity].
    rewrite rmatch_Seq, rmatch_Star. unfold ident_char at 1.
    rewrite star_loop_class.
    + change (class_matches flag_i ident_char_ranges) with is_ident_char.
      rewrite rmatch_Star.
      rewrite (star_loop_dotted kG HkG)
        by (pose proof (dropwhile_length is_ident_char s); lia).
      rewrite <- Hcap.
      rewrite <- (dropwhile_weaken is_ident_char is_key_tail s)
        by apply ident_char_key_tail.
      destruct (dropwhile is_ident_char s) as [|c' t] eqn:Edrop; [reflexivity|].
      now rewrite (dropwhile_head _ _ _ _ Edrop).
    + intros c' t cap' Hc'.
      rewrite rmatch_Star, (star_loop_dotted kG HkG) by reflexivity.
      change (class_matches flag_i ident_char_ranges) with is_ident_char in Hc'.
      now rewrite Hc'.
    + lia.
Qed.

Lemma close_rejects_key_tail {R : Type} (r : regex) (k : continuation R) :
  forall c t cap,
    is_key_tail c = true ->
    rmatch flag_i (Seq (Lit (ch "}")) r) (c :: t) cap k = None.
Proof.
  intros c t cap Hc. rewrite rmatch_Seq, rmatch_Lit_cons, lit_close_eqb.
  now rewrite (key_tail_not_close _ Hc).
Qed.

Lemma close_rejects_key_tail1 {R : Type} (k : continuation R) :
  forall c t cap,
    is_key_tail c = true -> rmatch flag_i (Lit (ch "}")) (c :: t) cap k = None.
Proof.
  intros c t cap Hc. rewrite rmatch_Lit_cons, lit_close_eqb.
  now rewrite (key_tail_not_close _ Hc).
Qed.

(** The single-brace pattern at the head of a text. *)
Lemma match_here_single (s : jsstring) :
  match_here flag_i singleBraces s = placeholder_at 1 s.
Proof.
  unfold match_here, singleBraces, placeholder_at.
  destruct s as [|c s]; [reflexivity|].
  rewrite rmatch_Seq, rmatch_Lit_cons, lit_open_eqb. cbn [strip].
  destruct (Ascii.eqb (ch "{") c) eqn:Eo; [|reflexivity].
  apply Ascii.eqb_eq in Eo. subst c.
  rewrite rmatch_Seq, rmatch_key_group by apply close_rejects_key_tail1.
  destruct (key_prefix s) as [[key rest]|] eqn:Ek; [|reflexivity].
  destruct rest as [|c rest]; [reflexivity|].
  rewrite rmatch_Lit_cons, lit_close_eqb.
  destruct (Ascii.eqb (ch "}") c) eqn:Ec; [|reflexivity].
  apply Ascii.eqb_eq in Ec. subst c.
  f_equal. f_equal. apply firstn_split.
  apply key_prefix_app in Ek. subst s. unfold braced. simpl.
  now rewrite <- app_assoc.
Qed.

(** The double-brace pattern at the head of a text. *)
Lemma match_here_double (s : jsstring) :
  match_here flag_i doubleBraces s = placeholder_at 2 s.
Proof.
  unfold match_here, doubleBraces, placeholder_at.
  destruct s as [|c s]; [reflexivity|].
  rewrite rmatch_Seq, rmatch_Lit_cons, lit_open_eqb. cbn [strip].
  destruct (Ascii.eqb (ch "{") c) eqn:Eo; [|reflexivity].
  apply Ascii.eqb_eq in Eo. subst c.
  destruct s as [|c s]; [reflexivity|].
  rewrite rmatch_Seq, rmatch_Lit_cons, lit_open_eqb.
  destruct (Ascii.eqb (ch "{") c) eqn:Eo; [|reflexivity].
  apply Ascii.eqb_eq in Eo. subst c.
  rewrite rmatch_Seq, rmatch_key_group by apply close_rejects_key_tail.
  destruct (key_prefix s) as [[key rest]|] eqn:Ek; [|reflexivity].
  destruct rest as [|c rest]; [reflexivity|].
  rewrite rmatch_Seq, rmatch_Lit_cons, lit_close_eqb.
  destruct (Ascii.eqb (ch "}") c) eqn:Ec; [|reflexivity].
  apply Ascii.eqb_eq in Ec. subst c.
  destruct rest as [|c rest]; [reflexivity|].
  rewrite rmatch_Lit_cons, lit_close_eqb.
  destruct (Ascii.eqb (ch "}") c) eqn:Ec; [|reflexivity].
  apply Ascii.eqb_eq in Ec. subst c.
  f_equal. f_equal. apply firstn_split.
  apply key_prefix_app in Ek. subst s. unfold braced. simpl.
  rewrite <- app_assoc. reflexivity.
Qed.

(** ** The replacement pass, one character at a time *)

Section ReplacePass.
Variables (ic : bool) (r : regex).

(** A match consumes at least one character. *)
Hypothesis match_shrinks :
  forall s m, match_here ic r s = Some m -> List.length (after m) < List.length s.

Lemma exec_shrinks (s skipped : jsstring) (m : regmatch) :
  exec ic r s = Some (skipped, m) -> List.length (after m) < List.length s.
Proof.
  revert skipped. induction s as [|c s IH]; intros skipped; simpl.
  - destruct (match_here ic r []) eqn:E; [|discriminate].
    intros [= <- <-]. now apply match_shrinks in E.
  - destruct (match_here ic r (c :: s)) eqn:E.
    + intros [= <- <-]. now apply match_shrinks in E.
    + destruct (exec ic r s) as [[sk m']|]; [|discriminate].
      intros [= <- <-]. specialize (IH _ eq_refl). lia.
Qed.

Lemma matchAll_fuel (n n' : nat) (s : jsstring) :
  List.length s <= n -> List.length s <= n' ->
  matchAll n ic r s = matchAll n' ic r s.
Proof.
  revert n' s. induction n as [|n IH]; intros n' s Hn Hn'.
  - destruct s; [|simpl in Hn; lia]. destruct n'; [reflexivity|]. simpl.
    destruct (match_here ic r []) eqn:E; [|reflexivity].
    apply match_shrinks in E. simpl in E. lia.
  - destruct n' as [|n'].
    + destruct s; [|simpl in Hn'; lia]. simpl.
      destruct (match_here ic r []) eqn:E; [|reflexivity].
      apply match_shrinks in E. simpl in E. lia.
    + cbn [matchAll]. destruct (exec ic r s) as [[sk m]|] eqn:E; [|reflexivity].
      apply exec_shrinks in E. f_equal. f_equal. apply IH; lia.
Qed.

Lemma matchAll_S (n : nat) (s : jsstring) :
  matchAll (S n) ic r s
  = match exec ic r s with
    | None => [Text s]
    | Some (skipped, m) =>
        Text skipped :: Hit (matched m) (group1 m) :: matchAll n ic r (after m)
    end.
Proof. reflexivity. Qed.

Variable fn : jsstring -> jsstring -> M jsstring.

Lemma String_replace_nil : String_replace ic r [] fn = ret [].
Proof. reflexivity. Qed.

Lemma String_replace_cons (c : ascii) (s : jsstring) :
  String_replace ic r (c :: s) fn
  = match match_here ic r (c :: s) with
    | Some m =>
        x <- fn (matched m) (group1 m) ;;
        out <- String_replace ic r (after m) fn ;;
        ret (x ++ out)
    | None =>
        out <- String_replace ic r s fn ;;
        ret (c :: out)
    end.
Proof.
  unfold String_replace. change (List.length (c :: s)) with (S (List.length s)).
  rewrite matchAll_S. cbn [exec].
  destruct (match_here ic r (c :: s)) as [m|] eqn:Em.
  - apply match_shrinks in Em. simpl in Em.
    rewrite (matchAll_fuel (List.length s) (List.length (after m))) by lia.
    cbn [substitute]. apply bind_ret_r.
  - destruct (exec ic r s) as [[sk m]|] eqn:Ee.
    + pose proof (exec_shrinks _ _ _ Ee) as Hlt.
      destruct s as [|c' s']; [simpl in Hlt; lia|].
      change (List.length (c' :: s')) with (S (List.length s')).
      rewrite (matchAll_S _ (c' :: s')), Ee.
      rewrite (matchAll_fuel (S (List.length s')) (List.length s'))
        by (simpl in Hlt; lia).
      cbn [substitute]. symmetry. rewrite bind_assoc.
      apply bind_ext. intros out. reflexivity.
    + destruct s as [|c' s']; [reflexivity|].
      change (List.length (c' :: s')) with (S (List.length s')).
      rewrite (matchAll_S _ (c' :: s')), Ee. reflexivity.
Qed.
End ReplacePass.

(** ** Placeholders at the head of a text *)

Lemma match_here_pattern (c : syntax) (s : jsstring) :
  match_here flag_i (pattern_of c) s = placeholder_at (braces c) s.
Proof. destruct c; [apply match_here_single|apply match_here_double]. Qed.

Lemma strip_length (c : ascii) (n : nat) (s r : jsstring) :
  strip c n s = Some r -> List.length s = n + List.length r.
Proof.
  revert s. induction n as [|n IH]; intros s; simpl.
  - now intros [= ->].
  - destruct s as [|c' s]; [discriminate|].
    destruct (Ascii.eqb c c'); [|discriminate].
    intros H. apply IH in H. simpl. lia.
Qed.

Lemma strip_repeat (c : ascii) (n : nat) (s r : jsstring) :
  strip c n s = Some r -> s = repeat c n ++ r.
Proof.
  revert s. induction n as [|n IH]; intros s; simpl.
  - now intros [= ->].
  - destruct s as [|c' s]; [discriminate|].
    destruct (Ascii.eqb c c') eqn:E; [|discriminate].
    apply Ascii.eqb_eq in E. subst c'. intros H. now rewrite (IH _ H).
Qed.

Lemma strip_repeat_app (c : ascii) (n : nat) (r : jsstring) :
  strip c n (repeat c n ++ r) = Some r.
Proof. induction n as [|n IH]; simpl; [|rewrite Ascii.eqb_refl]; auto. Qed.

Lemma key_prefix_valid (s key rest : jsstring) :
  key_prefix s = Some (key, rest) -> valid_key key = true.
Proof.
  destruct s as [|c s]; [discriminate|]. unfold key_prefix.
  destruct (is_digit c) eqn:Ed.
  - intros [= <- <-]. simpl. now rewrite Ed, takewhile_all.
  - destruct (is_ident_start c) eqn:Ei; [|discriminate].
    intros [= <- <-]. simpl. rewrite Ei, takewhile_all. apply orb_true_r.
Qed.

Lemma placeholder_at_inv (n : nat) (s : jsstring) (m : regmatch) :
  placeholder_at n s = Some m ->
  exists key rest,
    s = braced n key ++ rest /\ valid_key key = true
    /\ m = {| matched := braced n key; group1 := key; after := rest |}.
Proof.
  unfold placeholder_at.
  destruct (strip (ch "{") n s) as [s1|] eqn:E1; [|discriminate].
  destruct (key_prefix s1) as [[key s2]|] eqn:E2; [|discriminate].
  destruct (strip (ch "}") n s2) as [rest|] eqn:E3; [|discriminate].
  intros [= <-]. exists key, rest.
  apply strip_repeat in E1, E3. pose proof (key_prefix_valid _ _ _ E2).
  apply key_prefix_app in E2. subst. unfold braced.
  now rewrite <- !app_assoc.
Qed.

Lemma placeholder_shrinks (n : nat) (s : jsstring) (m : regmatch) :
  0 < n -> placeholder_at n s = Some m ->
  List.length (after m) < List.length s.
Proof.
  intros Hn H. apply placeholder_at_inv in H as (key & rest & -> & _ & ->).
  unfold braced. rewrite !length_app, repeat_length. simpl. lia.
Qed.

Lemma pattern_shrinks (c : syntax) (s : jsstring) (m : regmatch) :
  match_here flag_i (pattern_of c) s = Some m ->
  List.length (after m) < List.length s.
Proof.
  rewrite match_here_pattern. apply placeholder_shrinks. destruct c; simpl; lia.
Qed.

Lemma pass_nil (c : syntax) fn : pass c [] fn = ret [].
Proof. reflexivity. Qed.

Lemma pass_cons (c : syntax) fn (a : ascii) (s : jsstring) :
  pass c (a :: s) fn
  = match placeholder_at (braces c) (a :: s) with
    | Some m =>
        x <- fn (matched m) (group1 m) ;;
        out <- pass c (after m) fn ;;
        ret (x ++ out)
    | None =>
        out <- pass c s fn ;;
        ret (a :: out)
    end.
Proof.
  unfold pass. rewrite String_replace_cons by apply pattern_shrinks.
  now rewrite match_here_pattern.
Qed.

(** ** Matches do not cross an opening brace *)

Lemma open_not_key_tail : is_key_tail (ch "{") = false.
Proof. reflexivity. Qed.

Lemma digit_all_key_tail (c : ascii) : is_key_tail c = false -> is_digit c = false.
Proof.
  intros H. destruct (is_digit c) eqn:E; [|reflexivity].
  apply digit_key_tail in E. congruence.
Qed.

Lemma takewhile_app_stop (p : ascii -> bool) (s z : jsstring) :
  match z with [] => True | a :: _ => p a = false end ->
  takewhile p (s ++ z) = takewhile p s.
Proof.
  intros Hz. induction s as [|c s IH]; simpl.
  - destruct z as [|a z]; [reflexivity|]. simpl. now rewrite Hz.
  - destruct (p c); [now rewrite IH|reflexivity].
Qed.

Lemma dropwhile_app_stop (p : ascii -> bool) (s z : jsstring) :
  match z with [] => True | a :: _ => p a = false end ->
  dropwhile p (s ++ z) = dropwhile p s ++ z.
Proof.
  intros Hz. induction s as [|c s IH]; simpl.
  - destruct z as [|a z]; [reflexivity|]. simpl. now rewrite Hz.
  - destruct (p c); [now rewrite IH|reflexivity].
Qed.

Lemma key_prefix_opens (z : jsstring) : opens z -> key_prefix z = None.
Proof. destruct z as [|a z]; [reflexivity|]. simpl. now intros ->. Qed.

Lemma key_prefix_junction (s z : jsstring) :
  s <> [] -> opens z ->
  key_prefix (s ++ z)
  = match key_prefix s with
    | Some (key, rest) => Some (key, rest ++ z)
    | None => None
    end.
Proof.
  intros Hs Hz. destruct s as [|c s]; [congruence|]. simpl.
  assert (Hk : match z with [] => True | a :: _ => is_key_tail a = false end)
    by (destruct z; [exact I|simpl in Hz; subst; reflexivity]).
  assert (Hd : match z with [] => True | a :: _ => is_digit a = false end)
    by (destruct z; [exact I|simpl in Hz; subst; reflexivity]).
  destruct (is_digit c).
  - now rewrite takewhile_app_stop, dropwhile_app_stop.
  - destruct (is_ident_start c); [|reflexivity].
    now rewrite takewhile_app_stop, dropwhile_app_stop.
Qed.

Lemma strip_close_opens (n : nat) (z : jsstring) :
  0 < n -> opens z -> strip (ch "}") n z = None.
Proof.
  intros Hn Hz. destruct n; [lia|]. destruct z as [|a z]; [reflexivity|].
  simpl in *. now subst.
Qed.

Lemma junction_raw (x z : jsstring) :
  x <> [] -> opens z ->
  placeholder_at 1 (x ++ z) = option_map (extend z) (placeholder_at 1 x).
Proof.
  intros Hx Hz. destruct x as [|a x]; [congruence|].
  unfold placeholder_at. cbn [app strip].
  destruct (Ascii.eqb (ch "{") a); [|reflexivity].
  destruct x as [|b x].
  - cbn [app]. now rewrite key_prefix_opens.
  - rewrite key_prefix_junction by (congruence || assumption).
    destruct (key_prefix (b :: x)) as [[key rest]|]; [|reflexivity].
    destruct rest as [|c rest].
    + cbn [app]. destruct z as [|e z]; [reflexivity|].
      simpl in Hz. subst e. reflexivity.
    + cbn [app strip]. destruct (Ascii.eqb (ch "}") c); reflexivity.
Qed.

Lemma junction_escaped (x z : jsstring) :
  x <> [] -> opens z ->
  (x = [ch "{"] -> placeholder_at 2 (ch "{" :: z) = None) ->
  placeholder_at 2 (x ++ z) = option_map (extend z) (placeholder_at 2 x).
Proof.
  intros Hx Hz Hone. destruct x as [|a x]; [congruence|].
  destruct (Ascii.eqb (ch "{") a) eqn:Ea.
  2:{ unfold placeholder_at. cbn [app strip]. now rewrite Ea. }
  apply Ascii.eqb_eq in Ea. subst a.
  destruct x as [|a x].
  { cbn [app]. now rewrite Hone. }
  unfold placeholder_at. cbn [app strip]. rewrite Ascii.eqb_refl.
  destruct (Ascii.eqb (ch "{") a); [|reflexivity].
  destruct x as [|b x].
  - cbn [app]. now rewrite key_prefix_opens.
  - rewrite key_prefix_junction by (congruence || assumption).
    destruct (key_prefix (b :: x)) as [[key rest]|]; [|reflexivity].
    destruct rest as [|c rest].
    + cbn [app]. destruct z as [|e z]; [reflexivity|].
      simpl in Hz. subst e. reflexivity.
    + cbn [app strip]. destruct (Ascii.eqb (ch "}") c); [|reflexivity].
      destruct rest as [|d rest].
      * cbn [app]. destruct z as [|e z]; [reflexivity|].
        simpl in Hz. subst e. reflexivity.
      * cbn [app]. destruct (Ascii.eqb (ch "}") d); reflexivity.
Qed.

(** ** Splitting a pass where no match crosses *)

Lemma mapp_ret_nil (m : M jsstring) : mapp (ret []) m = m.
Proof. unfold mapp. rewrite bind_ret_l. apply bind_ret_r. Qed.

Lemma mapp_bind {A} (a : M A) (f : A -> M jsstring) (b : M jsstring) :
  mapp (x <- a ;; f x) b = x <- a ;; mapp (f x) b.
Proof. unfold mapp. now rewrite bind_assoc. Qed.

Lemma mapp_ret (l : jsstring) (b : M jsstring) :
  mapp (ret l) b = y <- b ;; ret (l ++ y).
Proof. unfold mapp. now rewrite bind_ret_l. Qed.

Lemma mapp_assoc (a b c : M jsstring) : mapp (mapp a b) c = mapp a (mapp b c).
Proof.
  unfold mapp. rewrite !bind_assoc. apply bind_ext. intros x.
  rewrite !bind_assoc. apply bind_ext. intros y.
  rewrite bind_ret_l, bind_assoc. apply bind_ext. intros z.
  now rewrite bind_ret_l, app_assoc.
Qed.

Lemma no_crossing_suffix (c : syntax) (x1 x2 z : jsstring) :
  no_crossing c (x1 ++ x2) z -> no_crossing c x2 z.
Proof.
  intros H y1 y2 -> Hy. apply (H (x1 ++ y1) y2); [now rewrite app_assoc|assumption].
Qed.

Lemma pass_split (c : syntax) fn (x z : jsstring) :
  no_crossing c x z ->
  pass c (x ++ z) fn = mapp (pass c x fn) (pass c z fn).
Proof.
  remember (List.length x) as n eqn:Hn. revert x Hn.
  induction n as [n IH] using lt_wf_ind. intros x Hn Hx.
  destruct x as [|a x].
  - now rewrite pass_nil, mapp_ret_nil.
  - cbn [app]. rewrite !pass_cons.
    change (a :: x ++ z) with ((a :: x) ++ z).
    rewrite (Hx [] (a :: x)) by (reflexivity || discriminate).
    destruct (placeholder_at (braces c) (a :: x)) as [m|] eqn:Em; cbn [option_map].
    + pose proof Em as Hm.
      apply placeholder_at_inv in Hm as (key & rest & Hsplit & _ & ->).
      cbn [extend matched group1 after].
      rewrite mapp_bind. apply bind_ext. intros r.
      rewrite mapp_bind.
      rewrite (IH (List.length rest)); [| |reflexivity|].
      * unfold mapp. rewrite !bind_assoc. apply bind_ext. intros o.
        rewrite bind_ret_l, bind_assoc. apply bind_ext. intros y.
        now rewrite bind_ret_l, app_assoc.
      * subst n. apply (placeholder_shrinks (braces c)) in Em;
          [exact Em|destruct c; simpl; lia].
      * rewrite Hsplit in Hx. now apply no_crossing_suffix in Hx.
    + rewrite mapp_bind.
      rewrite (IH (List.length x)); [| |reflexivity|].
      * unfold mapp. rewrite !bind_assoc. apply bind_ext. intros o.
        rewrite bind_ret_l, bind_assoc. apply bind_ext. intros y.
        now rewrite bind_ret_l.
      * subst n. simpl. lia.
      * now apply (no_crossing_suffix c [a]).
Qed.

Lemma no_crossing_raw (x z : jsstring) : opens z -> no_crossing RAW x z.
Proof. intros Hz x1 x2 _ Hx2. now apply junction_raw. Qed.

Lemma no_crossing_escaped (x z : jsstring) :
  opens z -> placeholder_at 2 (ch "{" :: z) = None -> no_crossing ESCAPED x z.
Proof. intros Hz Hnone x1 x2 _ Hx2. now apply junction_escaped. Qed.


(** ** Nested lookup *)

Lemma typeof_object (v : value) :
  loose_null v = false ->
  jsstring_eqb (typeof v) (str "object") = traversable v.
Proof. destruct v; try reflexivity; discriminate. Qed.

Lemma get_property_descend (v : value) (part : jsstring) :
  traversable v = true -> get_property v part = ret (descend v part).
Proof.
  destruct v; try discriminate; intros _; simpl; [|reflexivity].
  destruct (jsstring_eqb part _); [reflexivity|].
  now destruct (array_index part _).
Qed.

Lemma walk_total (parts : list jsstring) (v : value) :
  walk parts v = ret (lookup_parts parts v).
Proof.
  revert v. induction parts as [|part rest IH]; intros v; [reflexivity|].
  cbn [walk lookup_parts].
  destruct (loose_null v) eqn:En; [reflexivity|].
  rewrite typeof_object by assumption.
  destruct (traversable v) eqn:Et; [|reflexivity].
  now rewrite get_property_descend, bind_ret_l.
Qed.

Lemma getNestedValue_total (data : value) (key : jsstring) :
  getNestedValue data key = ret (nested_lookup data key).
Proof. apply walk_total. Qed.

Lemma split_on_nonempty (sep : ascii) (s : jsstring) : split_on sep s <> [].
Proof.
  destruct s as [|c s]; simpl; [discriminate|].
  destruct (Ascii.eqb c sep); [discriminate|].
  destruct (split_on sep s); discriminate.
Qed.

Lemma split_on_app (sep : ascii) (p q : jsstring) :
  split_on sep (p ++ sep :: q) = split_on sep p ++ split_on sep q.
Proof.
  induction p as [|c p IH]; simpl.
  - now rewrite Ascii.eqb_refl.
  - destruct (Ascii.eqb c sep); [now rewrite IH|].
    rewrite IH. pose proof (split_on_nonempty sep p).
    destruct (split_on sep p); [congruence|reflexivity].
Qed.

Lemma lookup_parts_app (a b : list jsstring) (v : value) :
  lookup_parts (a ++ b) v = lookup_parts b (lookup_parts a v).
Proof.
  revert v. induction a as [|part a IH]; intros v; [reflexivity|].
  cbn [app lookup_parts].
  destruct (loose_null v); [now destruct b|].
  destruct (traversable v); [apply IH|now destruct b].
Qed.

Lemma lookup_parts_stuck (parts : list jsstring) (v : value) :
  parts <> [] ->
  loose_null v = true \/ traversable v = false ->
  lookup_parts parts v = VUndefined.
Proof.
  destruct parts as [|part rest]; [congruence|]. intros _ H. simpl.
  destruct (loose_null v); [reflexivity|].
  destruct H as [H|H]; [discriminate|now rewrite H].
Qed.

Lemma nested_lookup_dot (data : value) (p q : jsstring) :
  nested_lookup data (p ++ ch "." :: q)
  = lookup_parts (split_on (ch ".") q) (nested_lookup data p).
Proof. unfold nested_lookup. now rewrite split_on_app, lookup_parts_app. Qed.

(** What the replacer does for one placeholder. *)
Lemma replace_spec (safeData : value) (options : HolmaOptions)
  (placeholder key : jsstring) :
  replace safeData options placeholder key
  = (transform_events options safeData key,
     if is_undefined (transformed options safeData key)
     then if ignoreMissing options then Ok placeholder
          else Err (MissingValueError key)
     else Ok (String_ (transformed options safeData key))).
Proof.
  unfold replace, transformed, transform_events.
  rewrite getNestedValue_total, bind_ret_l.
  destruct (transform options) as [f|]; simpl.
  - destruct (is_undefined (f (nested_lookup safeData key) key));
      [destruct (ignoreMissing options)|]; reflexivity.
  - destruct (is_undefined (nested_lookup safeData key));
      [destruct (ignoreMissing options)|]; reflexivity.
Qed.

Lemma withEscape_spec (safeData : value) (options : HolmaOptions)
  (placeholder key : jsstring) :
  withEscape (replace safeData options) placeholder key
  = if is_undefined (transformed options safeData key)
    then if ignoreMissing options
         then (transform_events options safeData key ++ [EEscape placeholder],
               Ok (htmlEscape_pure placeholder))
         else (transform_events options safeData key,
               Err (MissingValueError key))
    else (transform_events options safeData key
            ++ [EEscape (String_ (transformed options safeData key))],
          Ok (htmlEscape_pure (String_ (transformed options safeData key)))).
Proof.
  unfold withEscape. rewrite replace_spec.
  destruct (is_undefined (transformed options safeData key));
    [destruct (ignoreMissing options)|]; reflexivity.
Qed.

(** ** The guard of the first pass *)

Lemma String_replace_no_match (ic : bool) (r : regex) (s : jsstring) fn :
  test ic r s = false -> String_replace ic r s fn = ret s.
Proof.
  unfold test, String_replace. intros H.
  assert (Hp : matchAll (List.length s) ic r s = [Text s]).
  { destruct (List.length s); [reflexivity|]. simpl.
    destruct (exec ic r s) as [[sk m]|]; [discriminate|reflexivity]. }
  rewrite Hp. simpl. unfold ret. now rewrite app_nil_r.
Qed.

Lemma holma_two_passes (t : jsstring) (sch : schema) (data : value)
  (options : HolmaOptions) :
  holma (VStr t) sch data options
  = safeData <- validateSchema sch data ;; two_passes safeData options t.
Proof.
  unfold holma, two_passes, pass. apply bind_ext. intros safeData.
  destruct (test flag_i doubleBraces t) eqn:E; [reflexivity|].
  now rewrite (String_replace_no_match _ _ _ _ E).
Qed.

Lemma validateSchema_ok (sch : schema) (data : value) :
  issues (sch data) = None ->
  validateSchema sch data = ([EValidate data], Ok (value_ (sch data))).
Proof. unfold validateSchema. now intros ->. Qed.

Lemma validateSchema_issues (sch : schema) (data : value) (l : list issue) :
  issues (sch data) = Some l ->
  validateSchema sch data = ([EValidate data], Err (SchemaError l)).
Proof. unfold validateSchema. now intros ->. Qed.

(** ** A pass over its pieces *)

Lemma pass_pieces (c : syntax) (s : jsstring) fn :
  pass c s fn = substitute fn (pieces c s).
Proof. reflexivity. Qed.

Section PiecesLemmas.
Variables (options : HolmaOptions) (safeData : value).

Lemma replacer_spec (c : syntax) (placeholder key : jsstring) :
  replacer c safeData options placeholder key
  = if is_undefined (transformed options safeData key)
    then if ignoreMissing options
         then (transform_events options safeData key
                 ++ match c with
                    | RAW => []
                    | ESCAPED => [EEscape placeholder]
                    end,
               Ok match c with
                  | RAW => placeholder
                  | ESCAPED => htmlEscape_pure placeholder
                  end)
         else (transform_events options safeData key,
               Err (MissingValueError key))
    else (calls options safeData c (Hit placeholder key),
          Ok (inserted options safeData c (Hit placeholder key))).
Proof.
  destruct c; cbn [replacer calls inserted].
  - rewrite replace_spec.
    destruct (is_undefined (transformed options safeData key));
      [destruct (ignoreMissing options)|]; now rewrite ?app_nil_r.
  - apply withEscape_spec.
Qed.

Lemma substitute_present (c : syntax) (ps : list piece) :
  all_present options safeData ps = true ->
  substitute (replacer c safeData options) ps
  = (flat_map (calls options safeData c) ps,
     Ok (List.concat (map (inserted options safeData c) ps))).
Proof.
  induction ps as [|p ps IH]; [reflexivity|].
  cbn [all_present forallb]. intros H. apply andb_prop in H as [Hp Hps].
  specialize (IH Hps). destruct p as [t|ph key]; cbn [substitute].
  - rewrite IH. unfold bind, ret. now rewrite app_nil_r.
  - rewrite replacer_spec. cbn [present] in Hp.
    apply negb_true_iff in Hp. rewrite Hp, IH. unfold bind, ret.
    now rewrite app_nil_r.
Qed.

Lemma first_missing_none (ps : list piece) :
  first_missing options safeData ps = None
  <-> all_present options safeData ps = true.
Proof.
  induction ps as [|[t|ph key] ps IH]; cbn [first_missing all_present forallb present].
  - tauto.
  - exact IH.
  - destruct (is_undefined (transformed options safeData key)); simpl.
    + split; discriminate.
    + exact IH.
Qed.



Lemma substitute_missing (c : syntax) (ps : list piece) (key : jsstring) :
  ignoreMissing options = false ->
  first_missing options safeData ps = Some key ->
  substitute (replacer c safeData options) ps
  = (calls_until_missing options safeData c ps, Err (MissingValueError key)).
Proof.
  intros Hi. unfold calls_until_missing.
  induction ps as [|[t|ph k] ps IH];
    cbn [first_missing before_missing present substitute]; [discriminate| |].
  - intros H. rewrite (IH H), H. reflexivity.
  - rewrite replacer_spec.
    destruct (is_undefined (transformed options safeData k)) eqn:E; cbn [negb].
    + intros [= <-]. rewrite Hi. reflexivity.
    + intros H. rewrite (IH H), H. cbn [flat_map]. unfold bind.
      now rewrite <- app_assoc.
Qed.
End PiecesLemmas.

(** ** The renderer *)



(** The guard never changes what the renderer does, whatever the template. *)
Lemma holma_guard_irrelevant (template : value) (sch : schema) (data : value)
  (options : HolmaOptions) :
  holma template sch data options
  = holma_first_pass_always template sch data options.
Proof.
  destruct template; try reflexivity. apply holma_two_passes.
Qed.

(** The entities of the escaping function, character by character. *)
Lemma htmlEscape_entities :
  (forall a b, htmlEscape_pure (a ++ b) = htmlEscape_pure a ++ htmlEscape_pure b)
  /\ htmlEscape_pure [ch "&"] = str "&amp;"
  /\ htmlEscape_pure [ch "<"] = str "&lt;"
  /\ htmlEscape_pure [ch ">"] = str "&gt;"
  /\ htmlEscape_pure [double_quote] = str "&quot;"
  /\ htmlEscape_pure [ch "'"] = str "&#39;".
Proof.
  repeat split. intros a b. apply flat_map_app.
Qed.

Lemma two_passes_present (safeData : value) (options : HolmaOptions)
  (t : jsstring) :
  all_present options safeData (pieces ESCAPED t) = true ->
  two_passes safeData options t
  = let (tr, r) := pass RAW (after_first_pass options safeData t)
                     (replace safeData options) in
    (flat_map (calls options safeData ESCAPED) (pieces ESCAPED t) ++ tr, r).
Proof.
  intros H. unfold two_passes. rewrite pass_pieces.
  change (withEscape (replace safeData options))
    with (replacer ESCAPED safeData options).
  rewrite (substitute_present _ _ _ _ H). reflexivity.
Qed.

(** ** Outcomes *)

Lemma succeeds_ret {A} (a b : A) : succeeds (ret a) b <-> a = b.
Proof. unfold succeeds, outcome, ret. simpl. split; congruence. Qed.

Lemma succeeds_bind {A B} (m : M A) (f : A -> M B) (b : B) :
  succeeds (bind m f) b <-> exists a, succeeds m a /\ succeeds (f a) b.
Proof.
  unfold succeeds, outcome, bind. destruct m as [t [a|e]]; simpl.
  - destruct (f a) as [t' r] eqn:E. simpl. split.
    + intros ->. exists a. rewrite E. auto.
    + intros (a' & [= <-] & H). now rewrite E in H.
  - split; [discriminate|]. intros (a & H & _). discriminate.
Qed.

Lemma succeeds_mapp (a b : M jsstring) (o : jsstring) :
  succeeds (mapp a b) o
  <-> exists x y, succeeds a x /\ succeeds b y /\ o = x ++ y.
Proof.
  unfold mapp. rewrite succeeds_bind. split.
  - intros (x & Hx & H). apply succeeds_bind in H as (y & Hy & H).
    apply (proj1 (succeeds_ret _ _)) in H. exists x, y. auto.
  - intros (x & y & Hx & Hy & ->). exists x. split; [assumption|].
    apply succeeds_bind. exists y. split; [assumption|]. now apply succeeds_ret.
Qed.

Lemma succeeds_unique {A} (m : M A) (a b : A) :
  succeeds m a -> succeeds m b -> a = b.
Proof. unfold succeeds. congruence. Qed.

(** ** Text that a pass copies *)

Lemma placeholder_at_not_open (n : nat) (a : ascii) (s : jsstring) :
  0 < n -> a <> ch "{" -> placeholder_at n (a :: s) = None.
Proof.
  intros Hn Ha. destruct n; [lia|]. unfold placeholder_at. cbn [strip].
  destruct (Ascii.eqb (ch "{") a) eqn:E; [|reflexivity].
  apply Ascii.eqb_eq in E. congruence.
Qed.

Lemma braces_pos (c : syntax) : 0 < braces c.
Proof. destruct c; simpl; lia. Qed.

Lemma pass_copy_char (c : syntax) fn (a : ascii) (s : jsstring) :
  placeholder_at (braces c) (a :: s) = None ->
  pass c (a :: s) fn = out <- pass c s fn ;; ret (a :: out).
Proof. intros H. now rewrite pass_cons, H. Qed.

Lemma pass_copy_plain (c : syntax) fn (l s : jsstring) :
  (forall x, In x l -> x <> ch "{") ->
  pass c (l ++ s) fn = out <- pass c s fn ;; ret (l ++ out).
Proof.
  induction l as [|a l IH]; intros Hl.
  - symmetry. apply bind_ret_r.
  - cbn [app]. rewrite pass_copy_char.
    + rewrite IH by (intros x Hx; apply Hl; now right).
      rewrite bind_assoc. apply bind_ext. intros out. now rewrite bind_ret_l.
    + apply placeholder_at_not_open; [apply braces_pos|]. apply Hl. now left.
Qed.

(** A text whose first character is not the start of a match and whose
    other characters are not opening braces is copied. *)
Lemma pass_copy (c : syntax) fn (a : ascii) (l s : jsstring) :
  placeholder_at (braces c) (a :: l ++ s) = None ->
  (forall x, In x l -> x <> ch "{") ->
  pass c (a :: l ++ s) fn = out <- pass c s fn ;; ret (a :: l ++ out).
Proof.
  intros Ha Hl. rewrite pass_copy_char by assumption.
  rewrite pass_copy_plain by assumption.
  rewrite bind_assoc. apply bind_ext. intros out. now rewrite bind_ret_l.
Qed.

Lemma succeeds_copy (m : M jsstring) (l o : jsstring) :
  succeeds (out <- m ;; ret (l ++ out)) o
  <-> exists y, succeeds m y /\ o = l ++ y.
Proof.
  rewrite succeeds_bind. split; intros (y & Hy & H); exists y;
    (split; [assumption|]);
    [now apply (proj1 (succeeds_ret _ _)) in H|now apply succeeds_ret].
Qed.

(** ** Keys and the text around them *)

Lemma valid_key_chars (k : jsstring) :
  valid_key k = true -> forallb is_key_tail k = true.
Proof.
  destruct k as [|c k]; [discriminate|]. cbn [valid_key forallb].
  intros H. apply orb_prop in H as [H|H]; apply andb_prop in H as [Hc Hk].
  - rewrite (digit_key_tail _ Hc). simpl.
    rewrite forallb_forall in *. intros x Hx. now apply digit_key_tail, Hk.
  - now rewrite (ident_start_key_tail _ Hc), Hk.
Qed.

Lemma valid_key_no_brace (k : jsstring) (x : ascii) :
  valid_key k = true -> In x k -> x <> ch "{" /\ x <> ch "}".
Proof.
  intros Hk Hx. apply valid_key_chars in Hk. rewrite forallb_forall in Hk.
  specialize (Hk _ Hx).
  pose proof (key_tail_not_open _ Hk) as H1.
  pose proof (key_tail_not_close _ Hk) as H2.
  split; intros ->; [rewrite Ascii.eqb_refl in H1|rewrite Ascii.eqb_refl in H2];
    discriminate.
Qed.

Lemma key_prefix_of_key (k r : jsstring) :
  valid_key k = true ->
  key_prefix (k ++ ch "}" :: r) = Some (k, ch "}" :: r).
Proof.
  destruct k as [|c k]; [discriminate|]. cbn [valid_key app key_prefix].
  intros H. destruct (is_digit c) eqn:Ed.
  - rewrite (digit_not_ident_start _ Ed), andb_false_l, orb_false_r in H.
    cbn [andb] in H.
    rewrite takewhile_app_all, dropwhile_app_all by assumption.
    cbn [takewhile dropwhile]. change (is_digit (ch "}")) with false.
    cbv iota. now rewrite app_nil_r.
  - cbn [andb orb] in H. apply andb_prop in H as [-> H].
    rewrite takewhile_app_all, dropwhile_app_all by assumption.
    cbn [takewhile dropwhile]. change (is_key_tail (ch "}")) with false.
    cbv iota. now rewrite app_nil_r.
Qed.

Lemma braced_1 (k : jsstring) : braced 1 k = ch "{" :: k ++ [ch "}"].
Proof. reflexivity. Qed.

Lemma braced_2 (k : jsstring) :
  braced 2 k = ch "{" :: ch "{" :: k ++ [ch "}"; ch "}"].
Proof. reflexivity. Qed.

(** A valid key in its braces is a placeholder. *)
Lemma placeholder_at_braced (c : syntax) (k y : jsstring) :
  valid_key k = true ->
  placeholder_at (braces c) (braced (braces c) k ++ y)
  = Some {| matched := braced (braces c) k; group1 := k; after := y |}.
Proof.
  intros Hk. unfold placeholder_at, braced.
  rewrite <- !app_assoc, strip_repeat_app.
  destruct c; cbn [braces repeat app].
  - rewrite key_prefix_of_key by assumption.
    cbn [strip]. now rewrite Ascii.eqb_refl.
  - rewrite key_prefix_of_key by assumption.
    cbn [strip]. now rewrite !Ascii.eqb_refl.
Qed.

(** An opening brace before a double-brace placeholder starts no match of
    either pattern. *)
Lemma placeholder_at_open_open (n : nat) (s : jsstring) :
  0 < n -> placeholder_at n (repeat (ch "{") n ++ ch "{" :: s) = None.
Proof.
  intros Hn. unfold placeholder_at. rewrite strip_repeat_app. reflexivity.
Qed.


Lemma split_at_first (a : ascii) (k b r y : jsstring) :
  ~ In a k -> ~ In a b -> k ++ a :: r = b ++ a :: y -> k = b.
Proof.
  revert b. induction k as [|c k IH]; intros b Hk Hb H.
  - destruct b as [|d b]; [reflexivity|]. injection H as <- _.
    exfalso. apply Hb. now left.
  - destruct b as [|d b].
    + injection H as -> _. exfalso. apply Hk. now left.
    + injection H as <- H. f_equal. apply IH; [| |assumption].
      * intros Hin. apply Hk. now right.
      * intros Hin. apply Hb. now right.
Qed.

(** Braces around a text that holds no brace and is not a key are not a
    placeholder, with one brace or with two. *)
Lemma placeholder_at_not_key (n : nat) (body y : jsstring) :
  0 < n ->
  ~ In (ch "}") body ->
  valid_key body = false ->
  placeholder_at n (repeat (ch "{") n ++ body ++ ch "}" :: y) = None.
Proof.
  intros Hn Hb Hv. unfold placeholder_at. rewrite strip_repeat_app.
  destruct (key_prefix (body ++ ch "}" :: y)) as [[key rest]|] eqn:E; [|reflexivity].
  pose proof (key_prefix_valid _ _ _ E) as Hkey.
  apply key_prefix_app in E.
  destruct n; [lia|]. destruct rest as [|c rest]; [reflexivity|].
  cbn [strip]. destruct (Ascii.eqb (ch "}") c) eqn:Ec; [|reflexivity].
  apply Ascii.eqb_eq in Ec. subst c. exfalso.
  assert (key = body).
  { symmetry in E. apply (split_at_first _ _ _ _ _) in E; [assumption| |assumption].
    intros Hin. now destruct (valid_key_no_brace _ _ Hkey Hin). }
  congruence.
Qed.

(** The escaping function leaves a placeholder as it is. *)
Lemma escape_char_key_tail (c : ascii) :
  is_key_tail c = true -> escape_char c = [c].
Proof.
  intros H.
  assert (E : jsstring_eqb (escape_char c) [c] = true);
    [|now apply jsstring_eqb_eq].
  revert H. apply Bool.implb_true_iff. by_cases_on_char c.
Qed.

Lemma htmlEscape_key (k : jsstring) :
  valid_key k = true -> htmlEscape_pure k = k.
Proof.
  intros H. apply valid_key_chars in H. unfold htmlEscape_pure.
  induction k as [|c k IH]; [reflexivity|]. cbn [forallb] in H.
  apply andb_prop in H as [Hc Hk]. cbn [flat_map].
  now rewrite (escape_char_key_tail _ Hc), IH.
Qed.

Lemma htmlEscape_repeat (a : ascii) (n : nat) :
  escape_char a = [a] -> htmlEscape_pure (repeat a n) = repeat a n.
Proof.
  intros H. unfold htmlEscape_pure.
  induction n as [|n IH]; [reflexivity|].
  cbn [repeat flat_map]. now rewrite H, IH.
Qed.

Lemma htmlEscape_braced (n : nat) (k : jsstring) :
  valid_key k = true -> htmlEscape_pure (braced n k) = braced n k.
Proof.
  intros H. unfold braced.
  rewrite !(proj1 htmlEscape_entities), (htmlEscape_key _ H).
  now rewrite !htmlEscape_repeat by reflexivity.
Qed.

(** ** Text that both passes keep *)

Section Kept.
Variables (safeData : value) (options : HolmaOptions).

Lemma succeeds_two_passes (t out : jsstring) :
  succeeds (two_passes safeData options t) out
  <-> exists s1,
        succeeds (pass ESCAPED t (replacer ESCAPED safeData options)) s1
        /\ succeeds (pass RAW s1 (replacer RAW safeData options)) out.
Proof. unfold two_passes. apply succeeds_bind. Qed.

Lemma opens_app (l y : jsstring) : l <> [] -> opens l -> opens (l ++ y).
Proof. destruct l; [congruence|]. now intros _ H. Qed.

(** A text that the first pass keeps and the second pass turns into [r]
    splits the rendering around it. *)
Lemma two_passes_turns (x l r y : jsstring) :
  l <> [] -> opens l ->
  no_crossing ESCAPED x (l ++ y) ->
  kept safeData options ESCAPED l y ->
  (forall y2,
      succeeds (pass ESCAPED y (replacer ESCAPED safeData options)) y2 ->
      turns safeData options RAW l r y2) ->
  forall out,
    succeeds (two_passes safeData options (x ++ l ++ y)) out
    <-> exists ox oy,
          succeeds (two_passes safeData options x) ox
          /\ succeeds (two_passes safeData options y) oy
          /\ out = ox ++ r ++ oy.
Proof.
  intros Hl Ho Hcross Hk1 Hk2 out. rewrite succeeds_two_passes. split.
  - intros (s1 & H1 & H2).
    rewrite (pass_split _ _ _ _ Hcross) in H1.
    apply succeeds_mapp in H1 as (px & pz & Hpx & Hpz & ->).
    apply Hk1 in Hpz as (py & Hpy & ->).
    rewrite pass_split in H2 by (apply no_crossing_raw, opens_app; assumption).
    apply succeeds_mapp in H2 as (ox & oz & Hox & Hoz & ->).
    apply (Hk2 _ Hpy) in Hoz as (oy & Hoy & ->).
    exists ox, oy.
    split; [|split; [|reflexivity]]; apply succeeds_two_passes; eauto.
  - intros (ox & oy & Hx & Hy & ->).
    apply succeeds_two_passes in Hx as (px & Hpx & Hox).
    apply succeeds_two_passes in Hy as (py & Hpy & Hoy).
    exists (px ++ l ++ py). split.
    + rewrite (pass_split _ _ _ _ Hcross). apply succeeds_mapp.
      exists px, (l ++ py).
      split; [assumption|split; [apply Hk1; eauto|reflexivity]].
    + rewrite pass_split by (apply no_crossing_raw, opens_app; assumption).
      apply succeeds_mapp. exists ox, (r ++ oy).
      split; [assumption|split; [apply (Hk2 _ Hpy); eauto|reflexivity]].
Qed.

(** A text kept by both passes splits the rendering around it. *)
Lemma two_passes_keeps (x l y : jsstring) :
  l <> [] -> opens l ->
  no_crossing ESCAPED x (l ++ y) ->
  kept safeData options ESCAPED l y ->
  (forall y2,
      succeeds (pass ESCAPED y (replacer ESCAPED safeData options)) y2 ->
      kept safeData options RAW l y2) ->
  forall out,
    succeeds (two_passes safeData options (x ++ l ++ y)) out
    <-> exists ox oy,
          succeeds (two_passes safeData options x) ox
          /\ succeeds (two_passes safeData options y) oy
          /\ out = ox ++ l ++ oy.
Proof. apply two_passes_turns. Qed.


(** Copied text is kept. *)
Lemma kept_copy (c : syntax) (a : ascii) (l y : jsstring) :
  placeholder_at (braces c) (a :: l ++ y) = None ->
  (forall x, In x l -> x <> ch "{") ->
  kept safeData options c (a :: l) y.
Proof.
  intros Ha Hl o. cbn [app]. rewrite (pass_copy _ _ _ _ _ Ha Hl).
  apply (succeeds_copy _ (a :: l)).
Qed.

Hypothesis ignoring : ignoreMissing options = true.

(** With [ignoreMissing] a placeholder without a value is put back by the
    replacer of its own class. *)
Lemma replacer_puts_back (c : syntax) (k : jsstring) :
  valid_key k = true ->
  is_undefined (transformed options safeData k) = true ->
  outcome (replacer c safeData options (braced (braces c) k) k)
  = Ok (braced (braces c) k).
Proof.
  intros Hk Hu. rewrite replacer_spec, Hu, ignoring.
  destruct c; cbn [outcome snd]; [reflexivity|].
  now rewrite htmlEscape_braced.
Qed.



(** The first pass puts the escaped stringified value in place of a
    double-brace placeholder that has one. *)
Lemma turns_escaped_present (k y : jsstring) :
  valid_key k = true ->
  is_undefined (transformed options safeData k) = false ->
  turns safeData options ESCAPED (braced 2 k)
    (htmlEscape_pure (String_ (transformed options safeData k))) y.
Proof.
  intros Hk Hu o.
  destruct (braced 2 k ++ y) as [|a s] eqn:E; [discriminate|].
  rewrite pass_cons, <- E, (placeholder_at_braced ESCAPED) by assumption.
  cbn [matched group1 after]. rewrite succeeds_bind.
  assert (Hr : forall ph,
             outcome (replacer ESCAPED safeData options ph k)
             = Ok (htmlEscape_pure (String_ (transformed options safeData k))))
    by (intros ph; now rewrite replacer_spec, Hu).
  split.
  - intros (r & Hrr & H). unfold succeeds in Hrr. rewrite Hr in Hrr.
    injection Hrr as <-. now apply succeeds_copy in H.
  - intros H.
    exists (htmlEscape_pure (String_ (transformed options safeData k))).
    split; [apply Hr|now apply succeeds_copy].
Qed.

Lemma first_pass_escaped_value (x k y s1 : jsstring) :
  valid_key k = true ->
  is_undefined (transformed options safeData k) = false ->
  succeeds (pass ESCAPED (x ++ braced 2 k ++ y)
              (replacer ESCAPED safeData options)) s1
  <-> exists px py,
        succeeds (pass ESCAPED x (replacer ESCAPED safeData options)) px
        /\ succeeds (pass ESCAPED y (replacer ESCAPED safeData options)) py
        /\ s1 = px ++ htmlEscape_pure (String_ (transformed options safeData k))
                  ++ py.
Proof.
  intros Hk Hu. rewrite pass_split.
  2:{ apply no_crossing_escaped; [reflexivity|].
      rewrite braced_2. cbn [app]. apply (placeholder_at_open_open 2). lia. }
  rewrite succeeds_mapp. split.
  - intros (px & pz & Hx & Hz & ->).
    apply (turns_escaped_present k y Hk Hu) in Hz as (py & Hy & ->). eauto.
  - intros (px & py & Hx & Hy & ->). exists px. eexists.
    split; [exact Hx|split; [|reflexivity]].
    apply (turns_escaped_present k y Hk Hu). eauto.
Qed.


End Kept.

Lemma holma_outcome (t : jsstring) (sch : schema) (data : value)
  (options : HolmaOptions) :
  issues (sch data) = None ->
  outcome (holma (VStr t) sch data options)
  = outcome (two_passes (value_ (sch data)) options t).
Proof.
  intros H. rewrite holma_two_passes, (validateSchema_ok _ _ H).
  cbn [bind]. now destruct (two_passes (value_ (sch data)) options t).
Qed.


Section PassThrough.
Variables (safeData : value) (options : HolmaOptions).
Hypothesis ignoring : ignoreMissing options = true.






Variable k : jsstring.
Hypothesis key_ok : valid_key k = true.
Hypothesis missing : is_undefined (transformed options safeData k) = true.


End PassThrough.

(** ** Text in braces that is not a placeholder *)

Lemma placeholder_at_2_in_braces (body y : jsstring) :
  ~ In (ch "{") body ->
  placeholder_at 2 (in_braces body ++ y) = None.
Proof.
  intros Hb. unfold in_braces, placeholder_at. cbn [app strip].
  rewrite Ascii.eqb_refl. destruct body as [|a body]; [reflexivity|].
  cbn [app]. destruct (Ascii.eqb (ch "{") a) eqn:E; [|reflexivity].
  apply Ascii.eqb_eq in E. subst a. exfalso. apply Hb. now left.
Qed.

Lemma two_passes_keeps_in_braces (safeData : value) (options : HolmaOptions)
  (x body y o : jsstring) :
  brace_free body ->
  valid_key body = false ->
  succeeds (two_passes safeData options (x ++ in_braces body ++ y)) o
  <-> exists ox oy,
        succeeds (two_passes safeData options x) ox
        /\ succeeds (two_passes safeData options y) oy
        /\ o = ox ++ in_braces body ++ oy.
Proof.
  intros Hb Hv.
  assert (Hopen : ~ In (ch "{") body) by (intros H; now destruct (Hb _ H)).
  assert (Hclose : ~ In (ch "}") body) by (intros H; now destruct (Hb _ H)).
  assert (Hplain : forall a, In a (body ++ [ch "}"]) -> a <> ch "{").
  { intros a Ha. apply in_app_or in Ha as [Ha|[<-|[]]]; [|discriminate].
    now destruct (Hb _ Ha). }
  apply two_passes_keeps.
  - discriminate.
  - reflexivity.
  - apply no_crossing_escaped; [reflexivity|].
    unfold in_braces. cbn [app]. rewrite <- app_assoc.
    now apply (placeholder_at_not_key 2); [lia|..].
  - apply kept_copy; [|assumption].
    now apply (placeholder_at_2_in_braces body y).
  - intros y2 _. apply kept_copy; [|assumption].
    rewrite <- app_assoc.
    now apply (placeholder_at_not_key 1); [lia|..].
Qed.

(** Every key of the claimed grammar is a key of the patterns. *)
Lemma ident_start_ident_char (c : ascii) :
  is_ident_start c = true -> is_ident_char c = true.
Proof. intros H. revert H. apply Bool.implb_true_iff. by_cases_on_char c. Qed.

Lemma segments_key_tail (k : jsstring) :
  forallb (forallb is_ident_char) (split_on (ch ".") k) = true ->
  forallb is_key_tail k = true.
Proof.
  induction k as [|c k IH]; [reflexivity|]. cbn [split_on forallb].
  destruct (Ascii.eqb c (ch ".")) eqn:E.
  - cbn [forallb]. intros H. unfold is_key_tail at 1.
    rewrite E, orb_true_r. now apply IH.
  - destruct (split_on (ch ".") k) as [|p ps] eqn:Es.
    { now destruct (split_on_nonempty (ch ".") k). }
    cbn [forallb]. intros H.
    apply andb_prop in H as [H Hps]. apply andb_prop in H as [Hc Hp].
    rewrite (ident_char_key_tail _ Hc). apply IH. cbn [forallb].
    now rewrite Hp, Hps.
Qed.

Lemma is_segment_chars (s : jsstring) :
  is_segment s = true -> forallb is_ident_char s = true.
Proof.
  destruct s as [|c s]; [discriminate|]. cbn [is_segment forallb].
  intros H. apply andb_prop in H as [Hc Hs].
  now rewrite (ident_start_ident_char _ Hc), Hs.
Qed.

Lemma claimed_key_valid (k : jsstring) :
  claimed_key k = true -> valid_key k = true.
Proof.
  destruct k as [|c k]; [discriminate|]. cbn [claimed_key valid_key].
  intros H. apply orb_prop in H as [H|H].
  - cbn [forallb] in H. now rewrite H.
  - assert (Hc : is_ident_start c = true).
    { cbn [split_on] in H. destruct (Ascii.eqb c (ch ".")); [discriminate|].
      destruct (split_on (ch ".") k); cbn [forallb is_segment] in H;
        apply andb_prop in H as [H _]; now apply andb_prop in H as [H _]. }
    assert (Ht : forallb is_key_tail (c :: k) = true).
    { apply segments_key_tail. rewrite forallb_forall in *.
      intros s Hs. now apply is_segment_chars, H. }
    cbn [forallb] in Ht. apply andb_prop in Ht as [_ Ht].
    rewrite Hc, Ht. apply orb_true_r.
Qed.

(** ** A placeholder without a value, when missing values are not ignored *)

Section FailFast.
Variables (safeData : value) (options : HolmaOptions).
Hypothesis strict : ignoreMissing options = false.
Variable k : jsstring.
Hypothesis key_ok : valid_key k = true.
Hypothesis missing : is_undefined (transformed options safeData k) = true.




End FailFast.


(** ** Matches are placeholders of the template *)

Lemma exec_inv (ic : bool) (r : regex) (s skipped : jsstring) (m : regmatch) :
  exec ic r s = Some (skipped, m) ->
  exists s', s = skipped ++ s' /\ match_here ic r s' = Some m.
Proof.
  revert skipped. induction s as [|c s IH]; intros skipped; cbn [exec].
  - destruct (match_here ic r []) eqn:E; [|discriminate].
    intros [= <- <-]. exists []. auto.
  - destruct (match_here ic r (c :: s)) eqn:E.
    + intros [= <- <-]. exists (c :: s). auto.
    + destruct (exec ic r s) as [[sk m']|]; [|discriminate].
      intros [= <- <-]. destruct (IH _ eq_refl) as (s' & -> & H).
      exists s'. auto.
Qed.

Lemma exec_app (ic : bool) (r : regex) (x s : jsstring) (m : regmatch) :
  match_here ic r s = Some m -> exec ic r (x ++ s) <> None.
Proof.
  intros H. induction x as [|c x IH]; cbn [app].
  - destruct s; cbn [exec]; rewrite H; discriminate.
  - cbn [exec]. destruct (match_here ic r (c :: x ++ s)); [discriminate|].
    destruct (exec ic r (x ++ s)) as [[sk m']|]; [discriminate|congruence].
Qed.

(** The pattern finds no match exactly when no double-brace placeholder
    stands anywhere in the text. *)
Lemma test_doubleBraces_false (t : jsstring) :
  test flag_i doubleBraces t = false
  <-> forall x k y, valid_key k = true -> t <> x ++ braced 2 k ++ y.
Proof.
  unfold test. split.
  - intros H x k y Hk ->.
    apply (exec_app flag_i doubleBraces x (braced 2 k ++ y)
             {| matched := braced 2 k; group1 := k; after := y |}).
    + rewrite match_here_double. now apply (placeholder_at_braced ESCAPED).
    + now destruct (exec flag_i doubleBraces (x ++ braced 2 k ++ y)).
  - intros H. destruct (exec flag_i doubleBraces t) as [[sk m]|] eqn:E;
      [|reflexivity].
    apply exec_inv in E as (s' & -> & E). rewrite match_here_double in E.
    apply placeholder_at_inv in E as (key & rest & -> & Hk & _).
    now destruct (H sk key rest Hk).
Qed.

(** Every match of a pass is a valid key in the braces of its class,
    standing in the text. *)
Lemma pieces_hit_inv (c : syntax) (s ph key : jsstring) :
  In (Hit ph key) (pieces c s) ->
  valid_key key = true /\ ph = braced (braces c) key
  /\ exists x y, s = x ++ ph ++ y.
Proof.
  unfold pieces. generalize (List.length s) as fuel. intros fuel. revert s.
  induction fuel as [|fuel IH]; intros s; cbn [matchAll].
  - intros [H|[]]. discriminate.
  - destruct (exec flag_i (pattern_of c) s) as [[sk m]|] eqn:E.
    + apply exec_inv in E as (s' & -> & E). rewrite match_here_pattern in E.
      apply placeholder_at_inv in E as (k & rest & -> & Hk & ->).
      cbn [matched group1 after]. intros [H|[H|H]]; [discriminate| |].
      * injection H as <- <-. split; [assumption|split; [reflexivity|]].
        exists sk, rest. reflexivity.
      * destruct (IH _ H) as (Hv & Hph & x & y & ->).
        split; [assumption|split; [assumption|]].
        exists (sk ++ braced (braces c) k ++ x), y.
        now rewrite <- !app_assoc.
    + intros [H|[]]. discriminate.
Qed.

(** ** The tests of the repository, replayed on the model *)

Example test_mix_of_single_and_double_braces :
  outcome (holma (vstr "Hello {name}, content: {{html}}") accept_all
             (VObj [prop "name" (vstr "World"); prop "html" (vstr "<b>bold</b>")])
             default_options)
  = Ok (str "Hello World, content: &lt;b&gt;bold&lt;/b&gt;").
Proof. reflexivity. Qed.

Example test_nested_object_properties :
  outcome (holma (vstr "Hello {user.profile.name}!") accept_all
             (VObj [prop "user"
                      (VObj [prop "profile" (VObj [prop "name" (vstr "Alice")])])])
             default_options)
  = Ok (str "Hello Alice!").
Proof. reflexivity. Qed.

Example test_missing_nested_property :
  outcome (holma (vstr "Hello {user.profile.name}!") accept_all
             (VObj [prop "user" (VObj [prop "name" (vstr "test")])])
             default_options)
  = Err (MissingValueError (str "user.profile.name")).
Proof. reflexivity. Qed.

Example test_ignore_missing :
  outcome (holma (vstr "Hello {name}!") accept_all (VObj [])
             {| ignoreMissing := true; transform := None |})
  = Ok (str "Hello {name}!").
Proof. reflexivity. Qed.

Example test_transform_receives_key :
  outcome (holma (vstr "Hello {first} {last}!") accept_all
             (VObj [prop "first" (vstr "John"); prop "last" (vstr "Doe")])
             {| ignoreMissing := false;
                transform := Some (fun v key =>
                                     VStr (key ++ str ":" ++ String_ v)) |})
  = Ok (str "Hello first:John last:Doe!").
Proof. reflexivity. Qed.

Example test_transform_returning_undefined :
  outcome (holma (vstr "Hello {name}!") accept_all
             (VObj [prop "name" (vstr "world")])
             {| ignoreMissing := false; transform := Some (fun _ _ => VUndefined) |})
  = Err (MissingValueError (str "name")).
Proof. reflexivity. Qed.

Example test_numeric_keys :
  outcome (holma (vstr "{0} and {123}") accept_all
             (VObj [prop "0" (vstr "zero"); prop "123" (vstr "one-two-three")])
             default_options)
  = Ok (str "zero and one-two-three").
Proof. reflexivity. Qed.

Example test_special_characters_in_values :
  outcome (holma (vstr "Value: {special}") accept_all
             (VObj [prop "special" (vstr "{}[]().*+?^$|")]) default_options)
  = Ok (str "Value: {}[]().*+?^$|").
Proof. reflexivity. Qed.

Example test_non_string_values :
  outcome (holma (vstr "{num} {bool} {arr}") accept_all
             (VObj [prop "num" (VNum 42); prop "bool" (VBool true);
                    prop "arr" (VArr [vstr "a"; vstr "b"; vstr "c"])])
             default_options)
  = Ok (str "42 true a,b,c").
Proof. reflexivity. Qed.

Example test_no_recursive_processing :
  outcome (holma (vstr "Template: {template}, Value: {value}") accept_all
             (VObj [prop "template" (vstr "Hello {world}");
                    prop "value" (vstr "test")])
             default_options)
  = Ok (str "Template: Hello {world}, Value: test").
Proof. reflexivity. Qed.

(** * The claims *)

(** C1.  A value inserted by the first pass is scanned again by the second:
    the escaped text of [a] is [{b}], which the single-brace pass then
    replaces by the value of [b], so the output is the value of [b], not
    escaped, and not the text [{b}].  A value inserted by the second pass is
    not scanned again. *)
Theorem C1_escaped_value_is_scanned_again :
  let data := VObj [prop "a" (vstr "{b}"); prop "b" (vstr "<script>")] in
  holma (vstr "{{a}}") accept_all data default_options
  = ([EValidate data; EEscape (str "{b}")], Ok (str "<script>"))
  /\ holma (vstr "{a}") accept_all data default_options
     = ([EValidate data], Ok (str "{b}")).
Proof. split; reflexivity. Qed.









(** C6.  Nested lookup is total and never raises: on every data value and
    every dot-separated key it returns, without any call, the value the
    segment-by-segment walk of the specification yields; and once the walk
    has reached [null], an absent value or a value that cannot be traversed,
    every longer path through that point yields the absent marker. *)
Theorem C6_nested_lookup_is_total (data : value) (key : jsstring) :
  getNestedValue data key = ([], Ok (nested_lookup data key))
  /\ forall p q,
       key = p ++ ch "." :: q ->
       loose_null (nested_lookup data p) = true
       \/ traversable (nested_lookup data p) = false ->
       getNestedValue data key = ([], Ok VUndefined).
Proof.
  split; [apply getNestedValue_total|].
  intros p q -> H. rewrite getNestedValue_total, nested_lookup_dot.
  rewrite lookup_parts_stuck; [reflexivity|apply split_on_nonempty|exact H].
Qed.

Lemma C6_nested_lookup_is_total_witness :
  let data := VObj [prop "user" (VObj [prop "name" (vstr "test")])] in
  getNestedValue data (str "user.name") = ([], Ok (vstr "test"))
  /\ getNestedValue data (str "user.profile.name") = ([], Ok VUndefined)
  /\ getNestedValue data (str "user.name.first.letter") = ([], Ok VUndefined).
Proof.
  intros data. split; [|split].
  - apply (C6_nested_lookup_is_total data (str "user.name")).
  - apply (proj2 (C6_nested_lookup_is_total data (str "user.profile.name"))
             (str "user.profile") (str "name")); [reflexivity|].
    left. reflexivity.
  - apply (proj2 (C6_nested_lookup_is_total data (str "user.name.first.letter"))
             (str "user.name.first") (str "letter")); [reflexivity|].
    left. reflexivity.
Defined.



(** C8.  On a template that holds no double-brace placeholder, the
    renderer with the first pass skipped and the renderer with the first pass
    always run make the same calls and have the same outcome, and both agree
    with the guarded renderer: the guard is an optimisation only. *)
Theorem C8_first_pass_guard_is_an_optimisation (t : jsstring) (sch : schema)
  (data : value) (options : HolmaOptions) :
  no_escaped_placeholder t ->
  holma_first_pass_skipped (VStr t) sch data options
  = holma_first_pass_always (VStr t) sch data options
  /\ holma (VStr t) sch data options
     = holma_first_pass_always (VStr t) sch data options.
Proof.
  intros H. apply (proj2 (test_doubleBraces_false _)) in H.
  unfold holma_first_pass_skipped, holma_first_pass_always, holma.
  split; apply bind_ext; intros safeData.
  - now rewrite (String_replace_no_match _ _ _ _ H), bind_ret_l.
  - now rewrite H, (String_replace_no_match _ _ _ _ H).
Qed.

Lemma C8_first_pass_guard_is_an_optimisation_witness :
  let data := VObj [prop "name" (vstr "World")] in
  no_escaped_placeholder (str "Hello {name}! {{ not a key }}")
  /\ holma_first_pass_skipped (vstr "Hello {name}! {{ not a key }}") accept_all
       data default_options
     = holma_first_pass_always (vstr "Hello {name}! {{ not a key }}") accept_all
         data default_options
  /\ holma (vstr "Hello {name}! {{ not a key }}") accept_all data default_options
     = holma_first_pass_always (vstr "Hello {name}! {{ not a key }}") accept_all
         data default_options.
Proof.
  intros data.
  assert (H : no_escaped_placeholder (str "Hello {name}! {{ not a key }}"))
    by exact (proj1 (test_doubleBraces_false
                       (str "Hello {name}! {{ not a key }}")) eq_refl).
  split; [exact H|].
  exact (C8_first_pass_guard_is_an_optimisation
           (str "Hello {name}! {{ not a key }}") accept_all data
           default_options H).
Defined.

(** C9, as amended.  A key is one or more digits, or a letter, [$] or [_]
    followed by any run of word characters, hyphens, [$] and dots.  Braces
    around a text that holds no brace and is not such a key are left as they
    are and cause no error: the call on [x ++ {body} ++ y] succeeds exactly
    when the calls on [x] and on [y] succeed, and its output is then the
    output of [x], the braces and their text unchanged, and the output of
    [y]. *)
Theorem C9_text_in_braces_that_is_no_key_is_kept (sch : schema) (data : value)
  (options : HolmaOptions) (x body y out : jsstring) :
  issues (sch data) = None ->
  brace_free body ->
  valid_key body = false ->
  outcome (holma (VStr (x ++ in_braces body ++ y)) sch data options) = Ok out
  <-> exists ox oy,
        outcome (holma (VStr x) sch data options) = Ok ox
        /\ outcome (holma (VStr y) sch data options) = Ok oy
        /\ out = ox ++ in_braces body ++ oy.
Proof.
  intros Hv Hb Hk. rewrite !(holma_outcome _ _ _ _ Hv).
  now apply two_passes_keeps_in_braces.
Qed.

Lemma C9_text_in_braces_that_is_no_key_is_kept_witness :
  let data := VObj [prop "name" (vstr "World")] in
  outcome (holma (VStr (str "Hello {name}" ++ in_braces (str " name ")
                          ++ str "{{name}}"))
             accept_all data default_options)
  = Ok (str "Hello World{ name }World").
Proof.
  intros data.
  apply (C9_text_in_braces_that_is_no_key_is_kept accept_all data
           default_options (str "Hello {name}") (str " name ") (str "{{name}}")).
  - reflexivity.
  - intros a Ha. vm_compute in Ha.
    repeat (destruct Ha as [<-|Ha]; [split; discriminate|]). destruct Ha.
  - reflexivity.
  - exists (str "Hello World"), (str "World"). repeat split.
Defined.

(** C9, as stated, fails.  The text [a.] is no key of the claimed grammar
    (its second segment is empty), yet the brace-delimited [{a.}] is taken for
    a placeholder: it raises the missing-value error on data without it, and
    [{a.0}], whose second segment starts with a digit, is substituted. *)
Lemma C9_counterexample :
  claimed_key (str "a.") = false
  /\ holma (vstr "{a.}") accept_all (VObj []) default_options
     = ([EValidate (VObj [])], Err (MissingValueError (str "a.")))
  /\ claimed_key (str "a.0") = false
  /\ outcome (holma (vstr "{a.0}") accept_all
                (VObj [prop "a" (VArr [vstr "x"])]) default_options)
     = Ok (str "x").
Proof. repeat split. Qed.

(** C10.  Null is treated by its position in the key path.  A key that
    resolves to [null] at its last segment, with no transform or with a
    transform that returns [null], is not missing: both replacers put the
    text [null] in its place.  A [null] met before the last segment makes the
    lookup yield the absent marker, and with no transform the missing-value
    policy applies: the placeholder is kept under [ignoreMissing], and the
    call fails with the missing-value error for that key otherwise. *)
Theorem C10_null_by_position (safeData : value) (options : HolmaOptions)
  (placeholder key : jsstring) :
  (nested_lookup safeData key = VNull ->
   transform options = None \/ transformed options safeData key = VNull ->
   outcome (replace safeData options placeholder key) = Ok (str "null")
   /\ outcome (withEscape (replace safeData options) placeholder key)
      = Ok (str "null"))
  /\ (forall p q,
        key = p ++ ch "." :: q ->
        nested_lookup safeData p = VNull ->
        nested_lookup safeData key = VUndefined
        /\ (transform options = None ->
            outcome (replace safeData options placeholder key)
            = if ignoreMissing options then Ok placeholder
              else Err (MissingValueError key))).
Proof.
  split.
  - intros Hnull Ht.
    assert (Hv : transformed options safeData key = VNull).
    { destruct Ht as [Ht|Ht]; [|exact Ht]. unfold transformed. now rewrite Ht. }
    rewrite withEscape_spec, replace_spec, Hv. split; reflexivity.
  - intros p q -> Hnull.
    assert (Hu : nested_lookup safeData (p ++ ch "." :: q) = VUndefined).
    { rewrite nested_lookup_dot, Hnull.
      apply lookup_parts_stuck; [apply split_on_nonempty|now left]. }
    split; [exact Hu|]. intros Ht. rewrite replace_spec.
    unfold transformed. rewrite Ht, Hu. simpl.
    now destruct (ignoreMissing options).
Qed.

Lemma C10_null_by_position_witness :
  let data := VObj [prop "a" VNull; prop "b" (VObj [prop "c" VNull])] in
  (outcome (replace data default_options (str "{b.c}") (str "b.c"))
   = Ok (str "null")
   /\ outcome (withEscape (replace data default_options) (str "{{b.c}}") (str "b.c"))
      = Ok (str "null"))
  /\ (nested_lookup data (str "a.x") = VUndefined
      /\ outcome (replace data default_options (str "{a.x}") (str "a.x"))
         = Err (MissingValueError (str "a.x")))
  /\ holma (vstr "{a} {{b.c}}") accept_all data default_options
     = ([EValidate data; EEscape (str "null")], Ok (str "null null")).
Proof.
  intros data. split; [|split].
  - apply (C10_null_by_position data default_options (str "{b.c}") (str "b.c"));
      [reflexivity|left; reflexivity].
  - destruct (proj2 (C10_null_by_position data default_options
                       (str "{a.x}") (str "a.x"))
                    (str "a") (str "x") eq_refl eq_refl) as [H1 H2].
    split; [exact H1|exact (H2 eq_refl)].
  - reflexivity.
Defined.

(** * Further properties of the code *)

(** ** What the patterns recognise *)

(** X1.  Each pattern matches at the head of a text exactly when the text
    starts with a key in the braces of the pattern's class, a key being one
    or more digits, or a letter, [$] or [_] followed by any run of word
    characters, hyphens, [$] and dots; the match is the braces with the key,
    and the capture group is the key. *)
Theorem X1_patterns_match_exactly_the_placeholders (c : syntax)
  (s : jsstring) (m : regmatch) :
  match_here flag_i (pattern_of c) s = Some m
  <-> exists key rest,
        s = braced (braces c) key ++ rest
        /\ valid_key key = true
        /\ m = {| matched := braced (braces c) key;
                  group1 := key;
                  after := rest |}.
Proof.
  rewrite match_here_pattern. split.
  - apply placeholder_at_inv.
  - intros (key & rest & -> & Hk & ->). now apply placeholder_at_braced.
Qed.

Lemma X1_patterns_match_exactly_the_placeholders_witness :
  match_here flag_i singleBraces (str "{User.items.0}, hello")
  = Some {| matched := str "{User.items.0}";
            group1 := str "User.items.0";
            after := str ", hello" |}
  /\ match_here flag_i doubleBraces (str "{{$a-b..}}!")
     = Some {| matched := str "{{$a-b..}}";
               group1 := str "$a-b..";
               after := str "!" |}.
Proof.
  split.
  - apply (X1_patterns_match_exactly_the_placeholders RAW).
    exists (str "User.items.0"), (str ", hello"). repeat split.
  - apply (X1_patterns_match_exactly_the_placeholders ESCAPED).
    exists (str "$a-b.."), (str "!"). repeat split.
Defined.

(** ** Templates without placeholders *)

Lemma test_pattern_false (c : syntax) (t : jsstring) :
  test flag_i (pattern_of c) t = false <-> no_placeholder c t.
Proof.
  unfold test, no_placeholder. split.
  - intros H x k y Hk ->.
    apply (exec_app flag_i (pattern_of c) x (braced (braces c) k ++ y)
             {| matched := braced (braces c) k; group1 := k; after := y |}).
    + rewrite match_here_pattern. now apply placeholder_at_braced.
    + now destruct (exec flag_i (pattern_of c) (x ++ braced (braces c) k ++ y)).
  - intros H. destruct (exec flag_i (pattern_of c) t) as [[sk m]|] eqn:E;
      [|reflexivity].
    apply exec_inv in E as (s' & -> & E). rewrite match_here_pattern in E.
    apply placeholder_at_inv in E as (key & rest & -> & Hk & _).
    now destruct (H sk key rest Hk).
Qed.

Lemma no_raw_no_escaped (t : jsstring) :
  no_placeholder RAW t -> no_placeholder ESCAPED t.
Proof.
  intros H x k y Hk ->.
  apply (H (x ++ [ch "{"]) k (ch "}" :: y) Hk).
  cbn [braces]. rewrite braced_1, braced_2. cbn [app].
  now rewrite <- !app_assoc.
Qed.

(** X2.  A template in which no single-brace placeholder stands is returned
    as it is, once the data has passed validation: the only call made is
    the one to the validator, whatever the data and the options are.  This
    covers the empty template and text with braces that hold no key. *)
Theorem X2_template_without_placeholder_is_returned (t : jsstring)
  (sch : schema) (data : value) (options : HolmaOptions) :
  issues (sch data) = None ->
  no_placeholder RAW t ->
  holma (VStr t) sch data options = ([EValidate data], Ok t).
Proof.
  intros Hv Hn.
  assert (H2 : test flag_i doubleBraces t = false)
    by exact (proj2 (test_pattern_false ESCAPED t) (no_raw_no_escaped _ Hn)).
  assert (H1 : test flag_i singleBraces t = false)
    by exact (proj2 (test_pattern_false RAW t) Hn).
  unfold holma. rewrite (validateSchema_ok _ _ Hv), H2.
  cbn [bind ret]. rewrite (String_replace_no_match _ _ _ _ H1).
  reflexivity.
Qed.

Lemma X2_template_without_placeholder_is_returned_witness :
  let data := VObj [prop "name" (vstr "World")] in
  let options := {| ignoreMissing := false;
                    transform := Some (fun _ _ => VUndefined) |} in
  holma (vstr "if (x) { return {}; } // { name }, {-a}, {1a}") accept_all
    data options
  = ([EValidate data], Ok (str "if (x) { return {}; } // { name }, {-a}, {1a}"))
  /\ holma (vstr "") accept_all data options = ([EValidate data], Ok []).
Proof.
  intros data options. split.
  - apply (X2_template_without_placeholder_is_returned
             (str "if (x) { return {}; } // { name }, {-a}, {1a}"));
      [reflexivity|].
    exact (proj1 (test_pattern_false RAW
                    (str "if (x) { return {}; } // { name }, {-a}, {1a}"))
                 eq_refl).
  - apply (X2_template_without_placeholder_is_returned []); [reflexivity|].
    exact (proj1 (test_pattern_false RAW []) eq_refl).
Defined.

(** ** Text before the first opening brace *)

Lemma two_passes_copy_plain (safeData : value) (options : HolmaOptions)
  (l t : jsstring) :
  open_free l ->
  two_passes safeData options (l ++ t)
  = out <- two_passes safeData options t ;; ret (l ++ out).
Proof.
  intros Hl. unfold two_passes.
  rewrite pass_copy_plain by exact Hl.
  rewrite !bind_assoc. apply bind_ext. intros s1.
  rewrite bind_ret_l. now apply pass_copy_plain.
Qed.

(** X3.  Text without an opening brace in front of a template is copied:
    the call on [l ++ t] makes the calls of the call on [t], fails as it
    does, and otherwise returns [l] followed by what it returns. *)
Theorem X3_text_before_first_brace_is_copied (l t : jsstring) (sch : schema)
  (data : value) (options : HolmaOptions) :
  open_free l ->
  holma (VStr (l ++ t)) sch data options
  = out <- holma (VStr t) sch data options ;; ret (l ++ out).
Proof.
  intros Hl. rewrite !holma_two_passes, bind_assoc.
  apply bind_ext. intros safeData. now apply two_passes_copy_plain.
Qed.

Lemma X3_text_before_first_brace_is_copied_witness :
  let data := VObj [prop "name" (vstr "World")] in
  holma (VStr (str "a } b: " ++ str "{name} {x}")) accept_all data
    default_options
  = out <- holma (vstr "{name} {x}") accept_all data default_options ;;
    ret (str "a } b: " ++ out).
Proof.
  intros data. apply X3_text_before_first_brace_is_copied.
  intros a Ha. vm_compute in Ha.
  repeat (destruct Ha as [<-|Ha]; [discriminate|]). destruct Ha.
Defined.

(** ** Text after the last closing brace *)

Lemma braced_ends_with_close (c : syntax) (k : jsstring) :
  exists b, braced (braces c) k = b ++ [ch "}"].
Proof.
  destruct c; [exists (ch "{" :: k)|exists (ch "{" :: ch "{" :: k ++ [ch "}"])];
    [apply braced_1|].
  rewrite braced_2. cbn [app]. now rewrite <- app_assoc.
Qed.

Lemma no_crossing_close_free (c : syntax) (x z : jsstring) :
  (forall a, In a z -> a <> ch "}") -> no_crossing c x z.
Proof.
  intros Hz x1 x2 _ _.
  destruct (placeholder_at (braces c) x2) as [m|] eqn:E.
  - apply placeholder_at_inv in E as (k & rest & -> & Hk & ->).
    rewrite <- app_assoc. now rewrite !placeholder_at_braced.
  - destruct (placeholder_at (braces c) (x2 ++ z)) as [m|] eqn:E2; [|reflexivity].
    exfalso.
    apply placeholder_at_inv in E2 as (k & rest & Heq & Hk & _).
    apply app_eq_app in Heq as [l [[-> _]|[Hb ->]]].
    + rewrite placeholder_at_braced in E by assumption. discriminate.
    + destruct l as [|a l] using rev_ind.
      * rewrite app_nil_r in Hb. subst x2.
        rewrite <- (app_nil_r (braced (braces c) k)) in E.
        rewrite placeholder_at_braced in E by assumption. discriminate.
      * destruct (braced_ends_with_close c k) as [b Hbk]. rewrite Hbk in Hb.
        rewrite app_assoc in Hb. apply app_inj_tail in Hb as [_ <-].
        apply (Hz (ch "}")); [|reflexivity].
        apply in_or_app. left. apply in_or_app. right. now left.
Qed.

Lemma pass_plain (c : syntax) fn (l : jsstring) :
  open_free l -> pass c l fn = ret l.
Proof.
  intros Hl. rewrite <- (app_nil_r l) at 1.
  rewrite pass_copy_plain by exact Hl.
  now rewrite pass_nil, bind_ret_l, app_nil_r.
Qed.

Lemma pass_copy_tail (c : syntax) fn (t l : jsstring) :
  brace_free l ->
  pass c (t ++ l) fn = out <- pass c t fn ;; ret (out ++ l).
Proof.
  intros Hl. rewrite pass_split.
  - unfold mapp. apply bind_ext. intros out.
    rewrite pass_plain by (intros a Ha; now destruct (Hl a Ha)).
    now rewrite bind_ret_l.
  - apply no_crossing_close_free. intros a Ha. now destruct (Hl a Ha).
Qed.

(** X4.  Text without any brace behind a template is copied: the call on
    [t ++ l] makes the calls of the call on [t], fails as it does, and
    otherwise returns what it returns followed by [l]. *)
Theorem X4_text_after_last_brace_is_copied (t l : jsstring) (sch : schema)
  (data : value) (options : HolmaOptions) :
  brace_free l ->
  holma (VStr (t ++ l)) sch data options
  = out <- holma (VStr t) sch data options ;; ret (out ++ l).
Proof.
  intros Hl. rewrite !holma_two_passes, bind_assoc.
  apply bind_ext. intros safeData. unfold two_passes.
  rewrite pass_copy_tail by exact Hl.
  rewrite !bind_assoc. apply bind_ext. intros s1.
  rewrite bind_ret_l. now apply pass_copy_tail.
Qed.

Lemma X4_text_after_last_brace_is_copied_witness :
  let data := VObj [prop "name" (vstr "World")] in
  holma (VStr (str "{{name}} and {name" ++ str ".x, bye")) accept_all data
    default_options
  = out <- holma (vstr "{{name}} and {name") accept_all data default_options ;;
    ret (out ++ str ".x, bye").
Proof.
  intros data. apply X4_text_after_last_brace_is_copied.
  intros a Ha. vm_compute in Ha.
  repeat (destruct Ha as [<-|Ha]; [split; discriminate|]). destruct Ha.
Defined.

(** ** When every placeholder is missing and missing values are ignored *)

Lemma pieces_source (c : syntax) (s : jsstring) :
  List.concat (map source (pieces c s)) = s.
Proof.
  unfold pieces. generalize (List.length s) as fuel. intros fuel. revert s.
  induction fuel as [|fuel IH]; intros s; cbn [matchAll].
  - cbn. apply app_nil_r.
  - destruct (exec flag_i (pattern_of c) s) as [[sk m]|] eqn:E.
    + apply exec_inv in E as (s' & -> & E). rewrite match_here_pattern in E.
      apply placeholder_at_inv in E as (k & rest & -> & _ & ->).
      cbn [map source List.concat matched group1 after]. now rewrite IH.
    + cbn. apply app_nil_r.
Qed.

Lemma substitute_puts_back (safeData : value) (options : HolmaOptions)
  (c : syntax) (ps : list piece) :
  ignoreMissing options = true ->
  (forall ph key,
      In (Hit ph key) ps ->
      valid_key key = true /\ ph = braced (braces c) key
      /\ is_undefined (transformed options safeData key) = true) ->
  outcome (substitute (replacer c safeData options) ps)
  = Ok (List.concat (map source ps)).
Proof.
  intros Hi. induction ps as [|[t|ph key] ps IH]; intros H; cbn [substitute].
  - reflexivity.
  - apply (succeeds_copy _ t).
    exists (List.concat (map source ps)). split; [|reflexivity].
    apply IH. intros ph key Hin. apply H. now right.
  - destruct (H ph key (or_introl eq_refl)) as (Hk & -> & Hu).
    apply succeeds_bind. exists (braced (braces c) key). split.
    + now apply replacer_puts_back.
    + apply (succeeds_copy _ (braced (braces c) key)).
      exists (List.concat (map source ps)). split; [|reflexivity].
      apply IH. intros ph' key' Hin. apply H. now right.
Qed.

(** X5.  With [ignoreMissing] true, a template all of whose placeholders are
    without a value is returned as it is: each placeholder is put back in
    its place, the double-brace ones through the escaping function and the
    second pass. *)
Theorem X5_all_missing_and_ignored_returns_the_template (t : jsstring)
  (sch : schema) (data : value) (options : HolmaOptions) :
  ignoreMissing options = true ->
  issues (sch data) = None ->
  (forall x k y,
      valid_key k = true ->
      t = x ++ braced 1 k ++ y ->
      is_undefined (transformed options (value_ (sch data)) k) = true) ->
  outcome (holma (VStr t) sch data options) = Ok t.
Proof.
  intros Hi Hv Hall. rewrite (holma_outcome _ _ _ _ Hv).
  apply succeeds_two_passes. exists t.
  split; rewrite pass_pieces; unfold succeeds;
    (rewrite substitute_puts_back; [now rewrite pieces_source|exact Hi|]);
    intros ph key Hin; apply pieces_hit_inv in Hin as (Hk & -> & x & y & Ht);
    (split; [exact Hk|split; [reflexivity|]]).
  - apply (Hall (x ++ [ch "{"]) key (ch "}" :: y) Hk).
    rewrite Ht. cbn [braces]. rewrite braced_1, braced_2. cbn [app].
    now rewrite <- !app_assoc.
  - now apply (Hall x key y Hk).
Qed.

Lemma X5_all_missing_and_ignored_returns_the_template_witness :
  outcome (holma (vstr "<p>{{title}}</p> by {author.name}, {0}") accept_all
             (VObj [prop "title" (vstr "T")])
             {| ignoreMissing := true;
                transform := Some (fun _ _ => VUndefined) |})
  = Ok (str "<p>{{title}}</p> by {author.name}, {0}").
Proof.
  apply X5_all_missing_and_ignored_returns_the_template; reflexivity.
Defined.

(** ** The errors of a call *)

Lemma substitute_err_inv (c : syntax) (safeData : value)
  (options : HolmaOptions) (ps : list piece) (e : error) :
  outcome (substitute (replacer c safeData options) ps) = Err e ->
  exists ph k,
    e = MissingValueError k /\ In (Hit ph k) ps
    /\ ignoreMissing options = false
    /\ is_undefined (transformed options safeData k) = true.
Proof.
  induction ps as [|[t|ph key] ps IH]; cbn [substitute]; [discriminate| |].
  - destruct (substitute (replacer c safeData options) ps) as [tr [o|e']];
      [discriminate|].
    cbn. intros [= <-]. destruct (IH eq_refl) as (ph & k & He & Hin & H).
    exists ph, k. split; [assumption|split; [now right|assumption]].
  - rewrite replacer_spec.
    destruct (is_undefined (transformed options safeData key)) eqn:Eu.
    + destruct (ignoreMissing options) eqn:Ei.
      * destruct (substitute (replacer c safeData options) ps) as [tr [o|e']];
          [discriminate|].
        cbn. intros [= <-]. destruct (IH eq_refl) as (ph' & k & He & Hin & H).
        exists ph', k. split; [assumption|split; [now right|assumption]].
      * cbn. intros [= <-]. exists ph, key.
        split; [reflexivity|split; [now left|split; [reflexivity|assumption]]].
    + destruct (substitute (replacer c safeData options) ps) as [tr [o|e']];
        [discriminate|].
      cbn. intros [= <-]. destruct (IH eq_refl) as (ph' & k & He & Hin & H).
      exists ph', k. split; [assumption|split; [now right|assumption]].
Qed.

Lemma two_passes_err_inv (safeData : value) (options : HolmaOptions)
  (t : jsstring) (e : error) :
  outcome (two_passes safeData options t) = Err e ->
  exists k,
    e = MissingValueError k /\ valid_key k = true
    /\ ignoreMissing options = false
    /\ is_undefined (transformed options safeData k) = true.
Proof.
  unfold two_passes. rewrite pass_pieces.
  destruct (substitute (withEscape (replace safeData options)) (pieces ESCAPED t))
    as [tr [s1|e1]] eqn:E1.
  - cbn [bind]. rewrite pass_pieces.
    destruct (substitute (replace safeData options) (pieces RAW s1))
      as [tr2 r] eqn:E2.
    cbn. intros ->.
    destruct (substitute_err_inv RAW safeData options (pieces RAW s1) e)
      as (ph & k & He & Hin & Hi & Hu); [cbn [replacer]; now rewrite E2|].
    apply pieces_hit_inv in Hin as (Hk & _). eauto.
  - cbn. intros [= <-].
    destruct (substitute_err_inv ESCAPED safeData options (pieces ESCAPED t) e1)
      as (ph & k & He & Hin & Hi & Hu); [cbn [replacer]; now rewrite E1|].
    apply pieces_hit_inv in Hin as (Hk & _). eauto.
Qed.

(** X6.  A call fails with the missing-value error only on a string
    template whose data passed validation and with [ignoreMissing] false;
    the key the error carries is then a key of the placeholder grammar whose
    looked-up and transformed value is [undefined], and, the key being
    non-empty, the message of the error names it. *)
Theorem X6_missing_value_error_names_a_placeholder (template : value)
  (sch : schema) (data : value) (options : HolmaOptions) (k : jsstring) :
  outcome (holma template sch data options) = Err (MissingValueError k) ->
  is_string template = true
  /\ issues (sch data) = None
  /\ ignoreMissing options = false
  /\ valid_key k = true
  /\ is_undefined (transformed options (value_ (sch data)) k) = true
  /\ MissingValueError_message (Some k)
     = str "Missing a value for the placeholder: " ++ k.
Proof.
  destruct template as [| | | |t| |]; try discriminate.
  destruct (issues (sch data)) as [l|] eqn:Hv.
  { rewrite holma_two_passes, (validateSchema_issues _ _ _ Hv). discriminate. }
  rewrite (holma_outcome _ _ _ _ Hv). intros H.
  apply two_passes_err_inv in H as (k' & [= <-] & Hk & Hi & Hu).
  repeat (split; [assumption || reflexivity|]).
  destruct k; [discriminate|reflexivity].
Qed.

Lemma X6_missing_value_error_names_a_placeholder_witness :
  ignoreMissing default_options = false
  /\ valid_key (str "user.profile.name") = true
  /\ MissingValueError_message (Some (str "user.profile.name"))
     = str "Missing a value for the placeholder: user.profile.name".
Proof.
  destruct (X6_missing_value_error_names_a_placeholder
              (vstr "Hello {user.profile.name}!") accept_all
              (VObj [prop "user" (VObj [prop "name" (vstr "test")])])
              default_options (str "user.profile.name") eq_refl)
    as (_ & _ & Hi & Hk & _ & Hm).
  split; [exact Hi|split; [exact Hk|exact Hm]].
Defined.



(** ** Nested lookup along the path *)

(** X8.  Looking up a path [p.q] is looking up [p] and then looking up [q]
    in the value found, whatever that value is. *)
Theorem X8_nested_lookup_composes (data : value) (p q : jsstring) :
  getNestedValue data (p ++ ch "." :: q)
  = v <- getNestedValue data p ;; getNestedValue v q.
Proof.
  rewrite !getNestedValue_total, bind_ret_l, getNestedValue_total.
  now rewrite nested_lookup_dot.
Qed.






(** ** When [ignoreMissing] makes no difference *)

Lemma two_passes_strict_failure (safeData : value) (options : HolmaOptions)
  (t k : jsstring) :
  ignoreMissing options = false ->
  first_missing_key options safeData t = Some k ->
  outcome (two_passes safeData options t) = Err (MissingValueError k).
Proof.
  intros Hi. unfold first_missing_key.
  destruct (first_missing options safeData (pieces ESCAPED t)) as [k1|] eqn:E1.
  - intros [= <-]. unfold two_passes. rewrite pass_pieces.
    change (withEscape (replace safeData options))
      with (replacer ESCAPED safeData options).
    now rewrite (substitute_missing _ _ _ _ _ Hi E1).
  - intros E2. apply first_missing_none in E1.
    rewrite (two_passes_present _ _ _ E1), pass_pieces.
    change (replace safeData options) with (replacer RAW safeData options).
    now rewrite (substitute_missing _ _ _ _ _ Hi E2).
Qed.

Lemma two_passes_when_present (safeData : value) (options : HolmaOptions)
  (t : jsstring) :
  first_missing_key options safeData t = None ->
  two_passes safeData options t
  = (flat_map (calls options safeData ESCAPED) (pieces ESCAPED t)
       ++ flat_map (calls options safeData RAW)
            (pieces RAW (after_first_pass options safeData t)),
     Ok (List.concat
           (map (inserted options safeData RAW)
              (pieces RAW (after_first_pass options safeData t))))).
Proof.
  unfold first_missing_key.
  destruct (first_missing options safeData (pieces ESCAPED t)) eqn:E1;
    [discriminate|].
  intros E2. apply first_missing_none in E1, E2.
  rewrite (two_passes_present _ _ _ E1), pass_pieces.
  change (replace safeData options) with (replacer RAW safeData options).
  now rewrite (substitute_present _ _ _ _ E2).
Qed.

(** X10.  [ignoreMissing] changes nothing on a call that succeeds without
    it: the same call with [ignoreMissing] true makes the same calls and
    returns the same text. *)
Theorem X10_ignoreMissing_is_void_on_success (t : jsstring) (sch : schema)
  (data : value) (f : option (value -> jsstring -> value)) (out : jsstring) :
  outcome (holma (VStr t) sch data {| ignoreMissing := false; transform := f |})
  = Ok out ->
  holma (VStr t) sch data {| ignoreMissing := true; transform := f |}
  = holma (VStr t) sch data {| ignoreMissing := false; transform := f |}.
Proof.
  intros H. destruct (issues (sch data)) as [l|] eqn:Hv.
  { rewrite holma_two_passes, (validateSchema_issues _ _ _ Hv) in H.
    discriminate. }
  rewrite (holma_outcome _ _ _ _ Hv) in H.
  rewrite !holma_two_passes, (validateSchema_ok _ _ Hv). cbn [bind].
  destruct (first_missing_key {| ignoreMissing := false; transform := f |}
              (value_ (sch data)) t) as [k|] eqn:E.
  - rewrite (two_passes_strict_failure (value_ (sch data))
               {| ignoreMissing := false; transform := f |} t k eq_refl E) in H.
    discriminate.
  - rewrite (two_passes_when_present _ _ _ E).
    now rewrite (two_passes_when_present (value_ (sch data))
                   {| ignoreMissing := true; transform := f |} t E).
Qed.

Lemma X10_ignoreMissing_is_void_on_success_witness :
  let data := VObj [prop "a" (vstr "<A>"); prop "b" VNull] in
  let f := Some (fun (v : value) (_ : jsstring) => v) in
  holma (vstr "{a} {{a}} {b}") accept_all data
    {| ignoreMissing := true; transform := f |}
  = holma (vstr "{a} {{a}} {b}") accept_all data
      {| ignoreMissing := false; transform := f |}.
Proof.
  intros data f.
  apply (X10_ignoreMissing_is_void_on_success (str "{a} {{a}} {b}") accept_all
           data f (str "<A> &lt;A&gt; null")).
  reflexivity.
Defined.

(** ** A transform that supplies defaults *)



(** ** The validator is called once *)

Lemma transform_events_no_validate (options : HolmaOptions) (safeData : value)
  (key : jsstring) :
  forallb (fun e => negb (is_validate e))
    (transform_events options safeData key) = true.
Proof. unfold transform_events. now destruct (transform options). Qed.

Lemma substitute_trace (c : syntax) (safeData : value)
  (options : HolmaOptions) (ps : list piece) :
  forallb (fun e => negb (is_validate e))
    (trace (substitute (replacer c safeData options) ps)) = true.
Proof.
  pose proof (transform_events_no_validate options safeData) as Hev.
  induction ps as [|[t|ph key] ps IH]; cbn [substitute]; [reflexivity| |].
  - destruct (substitute (replacer c safeData options) ps) as [tr [o|e]];
      cbn in *; [now rewrite app_nil_r|assumption].
  - rewrite replacer_spec.
    destruct (substitute (replacer c safeData options) ps) as [tr [o|e]];
      destruct (is_undefined (transformed options safeData key));
      try destruct (ignoreMissing options); destruct c;
      cbn in *; rewrite ?app_nil_r, ?forallb_app, ?Hev, ?IH; reflexivity.
Qed.

Lemma two_passes_trace (safeData : value) (options : HolmaOptions)
  (t : jsstring) :
  forallb (fun e => negb (is_validate e))
    (trace (two_passes safeData options t)) = true.
Proof.
  unfold two_passes. rewrite pass_pieces.
  pose proof (substitute_trace ESCAPED safeData options (pieces ESCAPED t)) as H1.
  cbn [replacer] in H1.
  destruct (substitute (withEscape (replace safeData options)) (pieces ESCAPED t))
    as [tr [s1|e]]; [|exact H1].
  pose proof (substitute_trace RAW safeData options (pieces RAW s1)) as H2.
  cbn [replacer] in H2. cbn [bind]. rewrite pass_pieces.
  destruct (substitute (replace safeData options) (pieces RAW s1)) as [tr2 r].
  cbn in *. now rewrite forallb_app, H1, H2.
Qed.

(** X12.  On a string template the validator is called exactly once, with
    the data as given, and before any call of the transform hook or of the
    escaping function: the trace of the call starts with the validation and
    holds no other. *)
Theorem X12_validator_is_called_once_and_first (t : jsstring) (sch : schema)
  (data : value) (options : HolmaOptions) :
  exists tr,
    trace (holma (VStr t) sch data options) = EValidate data :: tr
    /\ forallb (fun e => negb (is_validate e)) tr = true.
Proof.
  rewrite holma_two_passes. unfold validateSchema.
  destruct (issues (sch data)) as [l|].
  - exists []. split; reflexivity.
  - pose proof (two_passes_trace (value_ (sch data)) options t) as H.
    cbn [emit bind ret throw].
    destruct (two_passes (value_ (sch data)) options t) as [tr r].
    exists tr. split; [reflexivity|exact H].
Qed.

(** ** An escaped value that cannot take part in a placeholder *)

Lemma dropwhile_app_found (p : ascii -> bool) (e y : jsstring) (c : ascii)
  (r : jsstring) :
  dropwhile p e = c :: r -> dropwhile p (e ++ y) = c :: r ++ y.
Proof.
  induction e as [|a e IH]; cbn [dropwhile app]; [discriminate|].
  destruct (p a); [exact IH|]. now intros [= <- <-].
Qed.

Lemma no_crossing_inert (x z : jsstring) :
  (exists c r, dropwhile is_key_tail z = c :: r /\ c <> ch "}") ->
  no_crossing RAW x z.
Proof.
  intros (c & r & Hz & Hc) x1 x2 _ Hx2. cbn [braces].
  destruct (placeholder_at 1 x2) as [m|] eqn:E.
  - apply (placeholder_at_inv 1) in E as (k & rest & -> & Hk & ->).
    rewrite <- app_assoc.
    now rewrite !(placeholder_at_braced RAW).
  - destruct (placeholder_at 1 (x2 ++ z)) as [m|] eqn:E2; [|reflexivity].
    exfalso.
    apply (placeholder_at_inv 1) in E2 as (k & rest & Heq & Hk & _).
    apply app_eq_app in Heq as [l [[-> _]|[Hb Hzl]]].
    + rewrite (placeholder_at_braced RAW) in E by assumption. discriminate.
    + destruct l as [|a l _] using rev_ind.
      * rewrite app_nil_r in Hb. subst x2.
        rewrite <- (app_nil_r (braced 1 k)) in E.
        rewrite (placeholder_at_braced RAW) in E by assumption. discriminate.
      * rewrite braced_1 in Hb.
        change (ch "{" :: k ++ [ch "}"]) with ((ch "{" :: k) ++ [ch "}"]) in Hb.
        rewrite app_assoc in Hb. apply app_inj_tail in Hb as [Hb <-].
        destruct x2 as [|a x2]; [congruence|]. injection Hb as _ Hb.
        apply valid_key_chars in Hk. rewrite Hb, forallb_app in Hk.
        apply andb_prop in Hk as [_ Hl].
        rewrite Hzl, <- app_assoc, dropwhile_app_all in Hz by assumption.
        cbn in Hz. injection Hz as <- _. now apply Hc.
Qed.

(** X13.  A double-brace placeholder with a value is replaced, in the
    output, by the HTML-escaped stringified value whenever that text cannot
    take part in a single-brace placeholder, that is, when it holds no
    opening brace and its leading key characters are followed by a character
    other than a closing brace (as in any text with a space, a tag or an
    entity in it): the call on [x ++ {{k}} ++ y] then succeeds exactly when
    the calls on [x] and [y] do, and returns their outputs around the
    escaped value. *)
Theorem X13_inert_escaped_value_is_inserted_as_it_is (sch : schema)
  (data : value) (options : HolmaOptions) (x k y out : jsstring) :
  issues (sch data) = None ->
  valid_key k = true ->
  is_undefined (transformed options (value_ (sch data)) k) = false ->
  inert (htmlEscape_pure (String_ (transformed options (value_ (sch data)) k))) ->
  outcome (holma (VStr (x ++ braced 2 k ++ y)) sch data options) = Ok out
  <-> exists ox oy,
        outcome (holma (VStr x) sch data options) = Ok ox
        /\ outcome (holma (VStr y) sch data options) = Ok oy
        /\ out = ox
                 ++ htmlEscape_pure
                      (String_ (transformed options (value_ (sch data)) k))
                 ++ oy.
Proof.
  intros Hv Hk Hu [Hopen (c & r & Hdrop & Hc)].
  rewrite !(holma_outcome _ _ _ _ Hv).
  set (safe := value_ (sch data)) in *.
  set (e := htmlEscape_pure (String_ (transformed options safe k))) in *.
  assert (Hsplit : forall px py,
             pass RAW (px ++ e ++ py) (replacer RAW safe options)
             = mapp (pass RAW px (replacer RAW safe options))
                 (out <- pass RAW py (replacer RAW safe options) ;;
                  ret (e ++ out))).
  { intros px py. rewrite pass_split.
    - now rewrite (pass_copy_plain RAW _ e py Hopen).
    - apply no_crossing_inert. exists c, (r ++ py). split; [|exact Hc].
      now apply dropwhile_app_found. }
  fold (succeeds (two_passes safe options (x ++ braced 2 k ++ y)) out).
  rewrite succeeds_two_passes. split.
  - intros (s1 & H1 & H2).
    apply (first_pass_escaped_value safe options x k y s1 Hk Hu) in H1
      as (px & py & Hpx & Hpy & ->).
    fold e in H2. rewrite Hsplit in H2.
    apply succeeds_mapp in H2 as (ox & oz & Hox & Hoz & ->).
    apply (succeeds_copy _ e) in Hoz as (oy & Hoy & ->).
    exists ox, oy.
    split; [|split; [|reflexivity]]; apply succeeds_two_passes; eauto.
  - intros (ox & oy & Hx & Hy & ->).
    apply succeeds_two_passes in Hx as (px & Hpx & Hox).
    apply succeeds_two_passes in Hy as (py & Hpy & Hoy).
    exists (px ++ e ++ py). split.
    + apply (first_pass_escaped_value safe options x k y _ Hk Hu). eauto.
    + rewrite Hsplit. apply succeeds_mapp. exists ox, (e ++ oy).
      split; [assumption|split; [|reflexivity]].
      apply (succeeds_copy _ e). eauto.
Qed.

Lemma X13_inert_escaped_value_is_inserted_as_it_is_witness :
  let data := VObj [prop "a" (vstr "b"); prop "ab" (vstr "X");
                    prop "t" (vstr "<b>Hi there</b>")] in
  outcome (holma (VStr (str "{a" ++ braced 2 (str "t") ++ str "} {{a}}"))
             accept_all data default_options)
  = Ok (str "{a" ++ str "&lt;b&gt;Hi there&lt;/b&gt;" ++ str "} b").
Proof.
  intros data.
  apply (X13_inert_escaped_value_is_inserted_as_it_is accept_all data
           default_options (str "{a") (str "t") (str "} {{a}}")).
  - reflexivity.
  - reflexivity.
  - reflexivity.
  - split.
    + intros a Ha. vm_compute in Ha.
      repeat (destruct Ha as [<-|Ha]; [discriminate|]). destruct Ha.
    + eexists. eexists. split; [vm_compute; reflexivity|discriminate].
  - exists (str "{a"), (str "} b"). repeat split.
Defined.
